(** * Gauss-Radau and Leja quadrature (chaospy.quad.collection)

    A shallow embedding of [leja.py] and [gauss_radau.py].

    Numbers are kept abstract (class [Num]): the properties established
    here are about the shape of the arrays the two generators build, about
    the control flow (which failure is raised, and when), and about exact
    algebraic identities of the Radau modification.  The routines the two
    files import from numpy, scipy and the rest of chaospy are fields of
    the record [Externals]; they may fail, and every call to one of them is
    recorded in the trace of the computation. *)

From Stdlib Require Import String List ZArith Lia Bool Ring.
From Stdlib Require Import QArith Qabs Lqa DecimalString Sorted.
Import ListNotations.
Close Scope Q_scope.

Set Implicit Arguments.

(** ** Numbers *)

Class Num (F : Type) : Type := {
  zero : F;
  one : F;
  add : F -> F -> F;
  sub : F -> F -> F;
  mul : F -> F -> F;
  neg : F -> F;
  fabs : F -> F;
  fsqrt : F -> F;
  ltb : F -> F -> bool;
  (* the text that "%s" produces for a number *)
  repr : F -> string
}.

(** ** Python exceptions, traces and the monad of computations *)

Inductive Exc : Type :=
| LinAlgError (msg : string)
| DependencyError (msg : string)
| NotImplementedError
| ValueError
| IndexError
| TypeError.

Definition is_LinAlgError (e : Exc) : bool :=
  match e with LinAlgError _ => true | _ => false end.

Definition is_NotImplementedError (e : Exc) : bool :=
  match e with NotImplementedError => true | _ => false end.

(** One event per call of a collaborator. *)
Inductive Event : Type :=
| CallGetDependencies
| CallFminbound
| CallAnalyticalStieltjes
| CallConstructQuadrature
| CallDiscretizedStieltjes
| CallInv
| CallRecurrence
| CallSolveBanded
| CallCoefficientsToQuadrature.

(** A computation yields the trace of the calls it made and either the
    exception it raised or its value. *)
Definition M (A : Type) : Type := (list Event * (Exc + A))%type.

Definition ret {A : Type} (a : A) : M A := ([], inr a).

Definition raise {A : Type} (e : Exc) : M A := ([], inl e).

Definition bind {A B : Type} (m : M A) (f : A -> M B) : M B :=
  match m with
  | (t, inl e) => (t, inl e)
  | (t, inr a) => let (t', r) := f a in (t ++ t', r)
  end.

(** [call ev r]: the collaborator is called (event [ev]) and answers [r]. *)
Definition call {A : Type} (ev : Event) (r : Exc + A) : M A := ([ev], r).

(** [lift r]: a step of the interpreter itself, which may raise. *)
Definition lift {A : Type} (r : Exc + A) : M A := ([], r).

(** [try m except handles: h] *)
Definition try_except {A : Type} (m : M A) (handles : Exc -> bool)
    (h : Exc -> M A) : M A :=
  match m with
  | (t, inl e) =>
      if handles e then let (t', r) := h e in (t ++ t', r) else (t, inl e)
  | (t, inr a) => (t, inr a)
  end.

Definition trace {A : Type} (m : M A) : list Event := fst m.
Definition result {A : Type} (m : M A) : Exc + A := snd m.

(** Every event of a computation satisfies [P]. *)
Definition events_in {A : Type} (P : Event -> Prop) (m : M A) : Prop :=
  Forall P (trace m).

Declare Scope monad_scope.
Delimit Scope monad_scope with monad.
Notation "x <- m ;; k" := (bind m (fun x => k))
  (at level 61, m at next level, right associativity) : monad_scope.
Notation "' pat <- m ;; k" := (bind m (fun x => match x with pat => k end))
  (at level 61, pat pattern, m at next level, right associativity) : monad_scope.
Open Scope monad_scope.

(** The collaborators of each generator. *)
Definition leja_work (ev : Event) : Prop :=
  match ev with
  | CallFminbound | CallAnalyticalStieltjes | CallConstructQuadrature
  | CallDiscretizedStieltjes | CallInv => True
  | _ => False
  end.

Definition radau_work (ev : Event) : Prop :=
  match ev with
  | CallRecurrence | CallSolveBanded | CallCoefficientsToQuadrature => True
  | _ => False
  end.

(** A list comprehension whose body may raise: left to right, stopping at
    the first exception. *)
Fixpoint mapM {A B : Type} (f : A -> M B) (l : list A) : M (list B) :=
  match l with
  | [] => ret []
  | a :: l' => b <- f a ;; bs <- mapM f l' ;; ret (b :: bs)
  end.

(** ** Python values given as [order] *)

#[warnings="-register-all"]
Inductive PyVal : Type :=
| VInt (z : Z)                 (* a Python int *)
| VNpInt (z : Z)               (* an integer scalar that is no int: numpy.int64 *)
| VSeq (items : list PyVal).   (* a list or tuple *)

(** [isinstance(v, int)] *)
Definition isinstance_int (v : PyVal) : bool :=
  match v with VInt _ => true | _ => false end.

(** [int(v)] *)
Definition py_int (v : PyVal) : Exc + Z :=
  match v with
  | VInt z | VNpInt z => inr z
  | VSeq _ => inl TypeError
  end.

(** [v[i]] for [i >= 0] *)
Definition getitem (v : PyVal) (i : nat) : Exc + PyVal :=
  match v with
  | VInt _ => inl TypeError
  | VNpInt _ => inl IndexError
  | VSeq items =>
      match nth_error items i with
      | Some x => inr x
      | None => inl IndexError
      end
  end.

(** ** Arrays *)

Section Arrays.
Context {F : Type} `{Num F}.

(** [numpy.prod] of a vector *)
Definition prod (l : list F) : F := fold_left mul l one.

(** [l[1:-1]] *)
Definition interior (l : list F) : list F := removelast (tl l).

(** [l.insert(i, x)] *)
Definition insert (i : nat) (x : F) (l : list F) : list F :=
  firstn i l ++ x :: skipn i l.

(** [numpy.argmin]: the first index at which the least value stands. *)
Fixpoint argmin_from (best_i : nat) (best : F) (i : nat) (vals : list F)
    : nat :=
  match vals with
  | [] => best_i
  | v :: vs =>
      if ltb v best then argmin_from i v (S i) vs
      else argmin_from best_i best (S i) vs
  end.

Definition argmin (vals : list F) : nat :=
  match vals with
  | [] => 0
  | v :: vs => argmin_from 0 v 1 vs
  end.

(** The pairs [(l[idx], l[idx+1])] for [idx in range(len(l)-1)]. *)
Definition adjacent (l : list F) : list (F * F) := List.combine l (tl l).

(** Modelled from the spec: the tensor combiner [combine] of
    [chaospy/quad/combine.py], which is not among the sources.  It
    "Cartesian-products per-dimension node arrays": one row per choice of
    one entry from every argument, the first argument varying slowest (the
    order of the multivariate example of [gauss_radau.py]). *)
Fixpoint combine (args : list (list F)) : list (list F) :=
  match args with
  | [] => [[]]
  | xs :: rest => flat_map (fun x => map (cons x) (combine rest)) xs
  end.

(** [rows.T] of an array of [D] columns, as a list of [D] rows. *)
Definition transpose (D : nat) (rows : list (list F)) : list (list F) :=
  map (fun d => map (fun r => nth d r zero) rows) (seq 0 D).

(** [numpy.prod(combine(weights), -1)] *)
Definition tensor_weights (weights : list (list F)) : list F :=
  map prod (combine weights).

(** [combine(abscissas).T] for [D] dimensions *)
Definition tensor_abscissas (D : nat) (abscissas : list (list F))
    : list (list F) :=
  transpose D (combine abscissas).

(** The number of rows of [combine args], the row at which the choice
    [idx] (one index per argument) stands, and that row. *)
Definition npoints (args : list (list F)) : nat :=
  fold_right (fun xs acc => length xs * acc) 1 args.

Fixpoint flat_index (args : list (list F)) (idx : list nat) : nat :=
  match args, idx with
  | _ :: rest, i :: idx' => i * npoints rest + flat_index rest idx'
  | _, _ => 0
  end.

Fixpoint select (args : list (list F)) (idx : list nat) : list F :=
  match args, idx with
  | xs :: rest, i :: idx' => nth i xs zero :: select rest idx'
  | _, _ => []
  end.

(** The sum of a vector and the inner product of two vectors, in which
    the moment equations of a rule are written. *)
Definition vsum (l : list F) : F := fold_left add l zero.

Definition dot (u v : list F) : F :=
  vsum (map (fun uv => mul (fst uv) (snd uv)) (List.combine u v)).
End Arrays.

(** ** Distributions *)

Section Distributions.
Variable F : Type.

(** A one-dimensional distribution: [range()], [mom(k)], [pdf(x)]. *)
Record Marginal : Type := {
  range : F * F;
  mom : Z -> F;
  pdf : F -> F
}.

(** A distribution has at least one dimension; iterating over it yields
    its one-dimensional marginals. *)
Inductive Dist : Type :=
| Joint (first : Marginal) (rest : list Marginal).

Definition marginals (dist : Dist) : list Marginal :=
  match dist with Joint m ms => m :: ms end.

Definition first_marginal (dist : Dist) : Marginal :=
  match dist with Joint m _ => m end.

(** [len(dist)] *)
Definition len (dist : Dist) : nat := length (marginals dist).

(** A 2-by-n array of recurrence coefficients, stored by column:
    [coeffs[0]] are the alphas, [coeffs[1]] the betas. *)
Definition Coeffs : Type := list (F * F).

(** The collaborators. *)
Record Externals : Type := {
  (* scipy.optimize.fminbound(f, a, b, full_output=1)[:2] *)
  fminbound : (F -> F) -> F -> F -> Exc + (F * F);
  (* evaluation.get_dependencies on the marginals, as a truth value *)
  get_dependencies : list Marginal -> bool;
  (* the polynomials of analytical_stieljes(order, dist) *)
  analytical_stieljes : Z -> Marginal -> Exc + list (F -> F);
  (* interface.construct_quadrature(order, dist, rule="C") *)
  construct_quadrature : Z -> Marginal -> Exc + (list (list F) * list F);
  (* the polynomials of discretized_stieltjes(order, abscissas, weights) *)
  discretized_stieltjes :
    Z -> list (list F) -> list F -> Exc + list (F -> F);
  (* numpy.linalg.inv *)
  inv : list (list F) -> Exc + list (list F);
  (* construct_recurrence_coefficients(order, dist, rule, accuracy,
     recurrence_algorithm) *)
  construct_recurrence_coefficients :
    Z -> Dist -> string -> Z -> string -> Exc + list Coeffs;
  (* scipy.linalg.solve_banded((1, 1), bands, rhs) *)
  solve_banded : list (list F) -> list F -> Exc + list F;
  (* coefficients_to_quadrature(coefficients): per dimension, the
     abscissas and the weights *)
  coefficients_to_quadrature :
    list Coeffs -> Exc + (list (list F) * list (list F))
}.
End Distributions.

Arguments Joint {F} first rest.
Arguments marginals {F} dist.
Arguments first_marginal {F} dist.
Arguments len {F} dist.

(** ** leja.py *)

Module Leja.
Section Leja.
Context {F : Type} `{Num F}.
Variable ext : Externals F.

(** The local [objective] of [quad_leja]; it reads the current list
    [abscissas] of the enclosing loop. *)
Definition objective (dist : Marginal F) (abscissas : list F)
    (abscissas_ : F) : F :=
  mul (neg (fsqrt (pdf dist abscissas_)))
      (prod (map (fun a => fabs (sub a abscissas_)) (interior abscissas))).

(** One pass of the loop body (lines 75-86). *)
Definition leja_step (dist : Marginal F) (abscissas : list F)
    : M (list F) :=
  res <- mapM (fun '(a, b) =>
                 call CallFminbound
                      (fminbound ext (objective dist abscissas) a b))
              (adjacent abscissas) ;;
  match res with
  | [] => raise ValueError          (* opts, vals = zip() *)
  | r0 :: _ =>
      let opts := map fst res in
      let vals := map snd res in
      let index := argmin vals in
      ret (insert (index + 1) (nth index opts (fst r0)) abscissas)
  end.

(** [for _ in range(n)] *)
Fixpoint leja_loop (n : nat) (dist : Marginal F) (abscissas : list F)
    : M (list F) :=
  match n with
  | O => ret abscissas
  | S n' =>
      abscissas' <- leja_step dist abscissas ;;
      leja_loop n' dist abscissas'
  end.

(** Lines 71-88: the node builder. *)
Definition leja_nodes (order : PyVal) (dist : Marginal F) : M (list F) :=
  let '(lower, upper) := range dist in
  let abscissas := [lower; mom dist 1; upper] in
  n <- lift (py_int order) ;;
  abscissas <- leja_loop (Z.to_nat n) dist abscissas ;;
  ret (interior abscissas).

(** [poly(nodes)]: row i holds polynomial i at every node. *)
Definition evaluate (poly : list (F -> F)) (nodes : list F)
    : list (list F) :=
  map (fun p => map p nodes) poly.

(** [weights[:, 0]] of a two-dimensional array *)
Definition column0 (weights : list (list F)) : Exc + list F :=
  match weights with
  | [] => inl IndexError
  | _ =>
      fold_right
        (fun row acc =>
           match row, acc with
           | x :: _, inr xs => inr (x :: xs)
           | [], _ => inl IndexError
           | _, inl e => inl e
           end)
        (inr []) weights
  end.

(** Lines 97-103: the orthogonal polynomials up to degree [len(nodes)-1],
    analytically or, when that is not implemented, from a discretization. *)
Definition orthogonal_basis (nodes : list F) (dist : Marginal F)
    : M (list (F -> F)) :=
  let n := Z.of_nat (length nodes) in
  try_except
    (call CallAnalyticalStieltjes (analytical_stieljes ext (n - 1) dist))
    is_NotImplementedError
    (fun _ =>
       '(abscissas, weights) <-
          call CallConstructQuadrature
               (construct_quadrature ext (100 * n) dist) ;;
       call CallDiscretizedStieltjes
            (discretized_stieltjes ext (n - 1) abscissas weights)).

Definition create_weights (nodes : list F) (dist : Marginal F)
    : M (list F) :=
  poly <- orthogonal_basis nodes dist ;;
  weights <- call CallInv (inv ext (evaluate poly nodes)) ;;
  lift (column0 weights).

(** Lines 71-92: [quad_leja] on a distribution of one dimension. *)
Definition quad_leja_1d (order : PyVal) (dist : Marginal F)
    : M (list (list F) * list F) :=
  abscissas <- leja_nodes order dist ;;
  weights <- create_weights abscissas dist ;;
  ret ([abscissas], weights).

(** [_[0][0]] of a one-dimensional result *)
Definition first_row (out : list (list F) * list F) : list F :=
  nth 0 (fst out) [].

(** [quad_leja].  The recursive calls of lines 59 and 61 are on marginals,
    whose length is 1: they run lines 71-92. *)
Definition quad_leja (order : PyVal) (dist : Dist F)
    : M (list (list F) * list F) :=
  if 1 <? len dist then
    deps <- call CallGetDependencies
                 (inr (get_dependencies ext (marginals dist))) ;;
    if deps : bool then
      raise (DependencyError
        "Leja quadrature do not supper distribution with dependencies.")
    else
      out <- (if isinstance_int order then
                mapM (fun d => quad_leja_1d order d) (marginals dist)
              else
                mapM (fun i =>
                        o <- lift (getitem order i) ;;
                        quad_leja_1d o (nth i (marginals dist)
                                            (first_marginal dist)))
                     (seq 0 (len dist))) ;;
      let abscissas := map first_row out in
      let weights := map snd out in
      ret (tensor_abscissas (len dist) abscissas, tensor_weights weights)
  else
    quad_leja_1d order (first_marginal dist).
End Leja.
End Leja.

(** ** gauss_radau.py *)

Module GaussRadau.
Section GaussRadau.
Context {F : Type} `{Num F}.
Variable ext : Externals F.

(** numpy arrays are objects: a reference is an address in a heap of
    coefficient arrays, and [copy()] allocates. *)
Definition Heap : Type := list (Coeffs F).

Definition load (h : Heap) (p : nat) : Exc + Coeffs F :=
  match nth_error h p with
  | Some a => inr a
  | None => inl TypeError        (* no such object: a reference is never dangling *)
  end.

Definition alloc (h : Heap) (a : Coeffs F) : nat * Heap :=
  (length h, h ++ [a]).

Fixpoint update (h : Heap) (p : nat) (a : Coeffs F) : Heap :=
  match h, p with
  | [], _ => []
  | _ :: h', O => a :: h'
  | b :: h', S p' => b :: update h' p' a
  end.

(** [v[-1]] *)
Definition last_item (v : list F) : Exc + F :=
  match v with
  | [] => inl IndexError
  | x :: v' => inr (last v' x)
  end.

(** [v[-1] = x] *)
Definition set_last (v : list F) (x : F) : Exc + list F :=
  match v with
  | [] => inl IndexError
  | _ => inr (removelast v ++ [x])
  end.

(** [numpy.zeros(n - 1)] for [n = len(coeffs[0])] *)
Definition zeros_pred (n : nat) : Exc + list F :=
  match n with
  | O => inl ValueError          (* negative dimensions are not allowed *)
  | S m => inr (repeat zero m)
  end.

(** [coeffs[0, -1] = x] *)
Definition set_last_alpha (c : Coeffs F) (x : F) : Exc + Coeffs F :=
  match c with
  | [] => inl IndexError
  | ab :: c' => inr (removelast c ++ [(x, snd (last c' ab))])
  end.

(** Lines 159-160: the right-hand side of the banded system. *)
Definition right_hand_side (c : Coeffs F) : Exc + list F :=
  match zeros_pred (length (map fst c)), last_item (map snd c) with
  | inr rhs, inr beta_last => set_last rhs beta_last
  | inl e, _ => inl e
  | _, inl e => inl e
  end.

(** Lines 161-162: [bands_a] and the three bands [bands_j]. *)
Definition bands_a (c : Coeffs F) (fixed_point : F) : list F * list F :=
  (map fsqrt (map snd c), map (fun a => sub a fixed_point) (map fst c)).

Definition bands_j (c : Coeffs F) (fixed_point : F) : list (list F) :=
  let a := bands_a c fixed_point in
  [removelast (fst a); removelast (snd a); tl (fst a)].

(** [radau_jakobi(coeffs, fixed_point)], on the heap [h]: the answer is
    the reference it returns and the heap it leaves. *)
Definition radau_jakobi (h : Heap) (coeffs : nat) (fixed_point : F)
    : M (nat * Heap) :=
  c <- lift (load h coeffs) ;;
  rhs <- lift (right_hand_side c) ;;
  delta <- try_except
             (call CallSolveBanded
                   (solve_banded ext (bands_j c fixed_point) rhs))
             is_LinAlgError
             (fun err =>
                raise (LinAlgError
                  ("Illegal Radau fixed point: " ++ repr fixed_point))) ;;
  let (coeffs', h') := alloc h c in
  delta_last <- lift (last_item delta) ;;
  c' <- lift (set_last_alpha c (add fixed_point delta_last)) ;;
  ret (coeffs', update h' coeffs' c').

(** The comprehension of lines 124-125 over
    [zip(fixed_point, coefficients)]. *)
Fixpoint radau_all (h : Heap) (args : list (F * nat)) : M (list nat * Heap) :=
  match args with
  | [] => ret ([], h)
  | (point, coeffs) :: args' =>
      '(p, h1) <- radau_jakobi h coeffs point ;;
      '(ps, h2) <- radau_all h1 args' ;;
      ret (p :: ps, h2)
  end.

(** The arrays a collaborator returns become objects of the heap. *)
Fixpoint alloc_all (h : Heap) (arrays : list (Coeffs F)) : list nat * Heap :=
  match arrays with
  | [] => ([], h)
  | a :: arrays' =>
      let (p, h1) := alloc h a in
      let (ps, h2) := alloc_all h1 arrays' in
      (p :: ps, h2)
  end.

Fixpoint load_all (h : Heap) (ps : list nat) : Exc + list (Coeffs F) :=
  match ps with
  | [] => inr []
  | p :: ps' =>
      match load h p, load_all h ps' with
      | inr a, inr l => inr (a :: l)
      | inl e, _ => inl e
      | _, inl e => inl e
      end
  end.

(** [a.reshape(D, -1)] *)
Definition reshape (D : nat) (a : list (list F)) : Exc + list (list F) :=
  let flat := concat a in
  let total := length flat in
  if (total mod D =? 0)%nat then
    let c := (total / D)%nat in
    inr (map (fun i => firstn c (skipn (i * c) flat)) (seq 0 D))
  else inl ValueError.

(** [fixed_point] after lines 114-117 *)
Definition resolve_fixed_point (dist : Dist F) (fixed_point : option F)
    : list F :=
  match fixed_point with
  | None => map (fun m => fst (range m)) (marginals dist)
  | Some x => map (fun o => mul o x) (repeat one (len dist))
  end.

Definition quad_gauss_radau (order : Z) (dist : Dist F)
    (fixed_point : option F) (rule : string) (accuracy : Z)
    (recurrence_algorithm : string) : M (list (list F) * list F) :=
  let fixed_point := resolve_fixed_point dist fixed_point in
  if (order =? 0)%Z then
    ret (map (fun x => [x]) fixed_point, [one])
  else
    coefficients <-
      call CallRecurrence
           (construct_recurrence_coefficients ext (2 * order - 1) dist rule
              accuracy recurrence_algorithm) ;;
    let (refs, h) := alloc_all [] coefficients in
    '(refs', h') <- radau_all h (List.combine fixed_point refs) ;;
    coefficients <- lift (load_all h' refs') ;;
    '(abscissas, weights) <-
      call CallCoefficientsToQuadrature
           (coefficients_to_quadrature ext coefficients) ;;
    abscissas <- lift (reshape (len dist)
                         (tensor_abscissas (length abscissas) abscissas)) ;;
    ret (abscissas, tensor_weights weights).

(** Modelled from the spec: the Jacobi matrix of recurrence coefficients,
    which [coefficients_to_quadrature] (not among the sources) hands to
    the eigen-solver: "symmetric tridiagonal matrix from recurrence
    coefficients", with main diagonal alpha[0..n-1] and sub- and
    super-diagonal sqrt(beta[1..n-1]).  [jacobi_mul c v] is the product of
    that matrix with the vector [v]. *)
Definition jacobi_mul (c : Coeffs F) (v : list F) : list F :=
  let alpha := map fst c in
  let offd := map fsqrt (map snd c) in
  map (fun i =>
         add (add (match i with
                   | O => zero
                   | S k => mul (nth i offd zero) (nth k v zero)
                   end)
                  (mul (nth i alpha zero) (nth i v zero)))
             (if (S i <? length c)%nat
              then mul (nth (S i) offd zero) (nth (S i) v zero)
              else zero))
      (seq 0 (length c)).

Definition is_eigenvalue (c : Coeffs F) (lam : F) : Prop :=
  exists v : list F,
    length v = length c /\
    (exists i, nth i v zero <> zero) /\
    jacobi_mul c v = map (mul lam) v.

(** What [solve_banded((1, 1), ab, b)] solves: the system whose matrix [a]
    has [a[i, j] = ab[1 + i - j, j]]; [banded_mul ab x] is the product of
    that matrix with [x]. *)
Definition banded_mul (ab : list (list F)) (x : list F) : list F :=
  let upper := nth 0 ab [] in
  let diag := nth 1 ab [] in
  let lower := nth 2 ab [] in
  map (fun i =>
         add (add (match i with
                   | O => zero
                   | S k => mul (nth k lower zero) (nth k x zero)
                   end)
                  (mul (nth i diag zero) (nth i x zero)))
             (if (S i <? length x)%nat
              then mul (nth (S i) upper zero) (nth (S i) x zero)
              else zero))
      (seq 0 (length x)).
End GaussRadau.
End GaussRadau.

(** ** Exact instances

    The rationals carry a complete set of collaborators for small cases:
    a bisecting minimizer, the monic orthogonal polynomials of degree at
    most 1, matrices of order at most 2.  The integers carry the banded
    solver alone; they are a ring for Leibniz equality. *)

Definition Qsqrt (q : Q) : Q :=
  Qred (Z.sqrt (Qnum q * Zpos (Qden q)) # Qden q).

Definition Qrepr (q : Q) : string :=
  let q := Qred q in
  match Qden q with
  | 1%positive => NilZero.string_of_int (Z.to_int (Qnum q)) ++ ".0"
  | d => NilZero.string_of_int (Z.to_int (Qnum q)) ++ "/"
         ++ NilZero.string_of_int (Z.to_int (Zpos d))
  end.

#[global] Instance NumQ : Num Q := {|
  zero := 0%Q;
  one := 1%Q;
  add := fun x y => Qred (x + y)%Q;
  sub := fun x y => Qred (x - y)%Q;
  mul := fun x y => Qred (x * y)%Q;
  neg := fun x => Qred (- x)%Q;
  fabs := fun x => Qred (Qabs x);
  fsqrt := Qsqrt;
  ltb := fun x y => negb (Qle_bool y x);
  repr := Qrepr
|}.

#[global] Instance NumZ : Num Z := {|
  zero := 0%Z;
  one := 1%Z;
  add := Z.add;
  sub := Z.sub;
  mul := Z.mul;
  neg := Z.opp;
  fabs := Z.abs;
  fsqrt := Z.sqrt;
  ltb := Z.ltb;
  repr := fun z => (NilZero.string_of_int (Z.to_int z) ++ ".0")%string
|}.

(** Uniform(0, 1) *)
Definition Uniform01 : Marginal Q := {|
  range := (0%Q, 1%Q);
  mom := fun k => (1 # Z.to_pos (k + 1))%Q;
  pdf := fun x => if Qle_bool 0 x && Qle_bool x 1 then 1%Q else 0%Q
|}.

(** The law of a fair coin on -2 and 2. *)
Definition Coin2 : Marginal Q := {|
  range := ((-2)%Q, 2%Q);
  mom := fun k => if Z.even k then (2 ^ k)%Q else 0%Q;
  pdf := fun x => if Qeq_bool (Qabs x) 2 then (1 # 2)%Q else 0%Q
|}.

Definition Qfminbound (f : Q -> Q) (a b : Q) : Exc + (Q * Q) :=
  if Qle_bool a b then
    let x := Qred ((a + b) / 2)%Q in inr (x, f x)
  else inl ValueError.

Definition Qstieltjes (n : Z) (d : Marginal Q) : Exc + list (Q -> Q) :=
  let p0 := fun _ : Q => 1%Q in
  let p1 := fun x : Q => Qred (x - mom d 1)%Q in
  if (n <? 0)%Z then inr []
  else if (n =? 0)%Z then inr [p0]
  else if (n =? 1)%Z then inr [p0; p1]
  else inl NotImplementedError.

Definition Qinv (m : list (list Q)) : Exc + list (list Q) :=
  match m with
  | [[a]] =>
      if Qeq_bool a 0 then inl (LinAlgError "Singular matrix")
      else inr [[Qred (/ a)%Q]]
  | [[a; b]; [c; d]] =>
      let det := (a * d - b * c)%Q in
      if Qeq_bool det 0 then inl (LinAlgError "Singular matrix")
      else inr [[Qred (d / det)%Q; Qred (- b / det)%Q];
                [Qred (- c / det)%Q; Qred (a / det)%Q]]
  | _ => inl NotImplementedError
  end.

(** Recurrence coefficients of degree 1, from the moments. *)
Definition Qrecurrence_1 (d : Marginal Q) : Coeffs Q :=
  let m0 := mom d 0 in
  let m1 := mom d 1 in
  let m2 := mom d 2 in
  let m3 := mom d 3 in
  let a0 := (m1 / m0)%Q in
  let b1 := (m2 / m0 - a0 * a0)%Q in
  let a1 := ((m3 - 2 * a0 * m2 + a0 * a0 * m1) / (m0 * b1))%Q in
  [(Qred a0, Qred m0); (Qred a1, Qred b1)].

Definition Qrecurrence (n : Z) (dist : Dist Q) (rule : string) (accuracy : Z)
    (algorithm : string) : Exc + list (Coeffs Q) :=
  if (n =? 1)%Z then inr (map Qrecurrence_1 (marginals dist))
  else inl NotImplementedError.

(** Systems of one equation. *)
Definition Qsolve_banded (ab : list (list Q)) (b : list Q) : Exc + list Q :=
  match ab, b with
  | [_; [d]; _], [b0] =>
      if Qeq_bool d 0 then inl (LinAlgError "singular matrix")
      else inr [Qred (b0 / d)%Q]
  | _, _ => inl NotImplementedError
  end.

Definition Zsolve_banded (ab : list (list Z)) (b : list Z) : Exc + list Z :=
  match ab, b with
  | [_; [d]; _], [b0] =>
      if (d =? 0)%Z then inl (LinAlgError "singular matrix")
      else if (b0 mod d =? 0)%Z then inr [(b0 / d)%Z]
      else inl ValueError
  | _, _ => inl NotImplementedError
  end.

(** Eigenvalues of the Jacobi matrix of two coefficient pairs, ascending,
    with the squared first components of the unit eigenvectors scaled by
    beta[0]; exact when the discriminant is a square. *)
Definition Qeig_1 (c : Coeffs Q) : Exc + (list Q * list Q) :=
  match c with
  | [(a0, b0)] => inr ([a0], [b0])
  | [(a0, b0); (a1, b1)] =>
      if Qle_bool 0 b1 then
        let s2 := b1 in
        let r := Qsqrt ((a0 - a1) * (a0 - a1) + 4 * s2)%Q in
        let lo := ((a0 + a1 - r) / 2)%Q in
        let hi := ((a0 + a1 + r) / 2)%Q in
        let w := fun lam : Q =>
          if Qeq_bool s2 0 then (if Qeq_bool lam a0 then b0 else 0%Q)
          else (b0 * (s2 / (s2 + (lam - a0) * (lam - a0))))%Q in
        inr ([Qred lo; Qred hi], [Qred (w lo); Qred (w hi)])
      else inl (LinAlgError "Invalid recurrence coefficients")
  | _ => inl NotImplementedError
  end.

Fixpoint Qeig (cs : list (Coeffs Q)) : Exc + (list (list Q) * list (list Q)) :=
  match cs with
  | [] => inr ([], [])
  | c :: cs' =>
      match Qeig_1 c, Qeig cs' with
      | inr (x, w), inr (xs, ws) => inr (x :: xs, w :: ws)
      | inl e, _ => inl e
      | _, inl e => inl e
      end
  end.

Definition extQ : Externals Q := {|
  fminbound := Qfminbound;
  get_dependencies := fun _ => false;
  analytical_stieljes := Qstieltjes;
  construct_quadrature := fun _ _ => inl NotImplementedError;
  discretized_stieltjes := fun _ _ _ => inl NotImplementedError;
  inv := Qinv;
  construct_recurrence_coefficients := Qrecurrence;
  solve_banded := Qsolve_banded;
  coefficients_to_quadrature := Qeig
|}.

(** The same collaborators, for marginals that share a variable. *)
Definition extQ_dependent : Externals Q := {|
  fminbound := Qfminbound;
  get_dependencies := fun _ => true;
  analytical_stieljes := Qstieltjes;
  construct_quadrature := fun _ _ => inl NotImplementedError;
  discretized_stieltjes := fun _ _ _ => inl NotImplementedError;
  inv := Qinv;
  construct_recurrence_coefficients := Qrecurrence;
  solve_banded := Qsolve_banded;
  coefficients_to_quadrature := Qeig
|}.

Definition extZ : Externals Z := {|
  fminbound := fun _ _ _ => inl NotImplementedError;
  get_dependencies := fun _ => false;
  analytical_stieljes := fun _ _ => inl NotImplementedError;
  construct_quadrature := fun _ _ => inl NotImplementedError;
  discretized_stieltjes := fun _ _ _ => inl NotImplementedError;
  inv := fun _ => inl NotImplementedError;
  construct_recurrence_coefficients := fun _ _ _ _ _ => inl NotImplementedError;
  solve_banded := Zsolve_banded;
  coefficients_to_quadrature := fun _ => inl NotImplementedError
|}.

(** The counting measure on -2 and 2, and integer collaborators of
    [quad_gauss_radau] for the order 1: recurrence coefficients from the
    moments, systems of one equation, Jacobi matrices of order at most 2;
    each exact when its divisions and square roots are. *)
Definition Count2 : Marginal Z := {|
  range := ((-2)%Z, 2%Z);
  mom := fun k => if Z.even k then (2 * 2 ^ k)%Z else 0%Z;
  pdf := fun x => if (Z.abs x =? 2)%Z then 1%Z else 0%Z
|}.

Definition Zrecurrence_1 (d : Marginal Z) : Coeffs Z :=
  let m0 := mom d 0 in
  let m1 := mom d 1 in
  let m2 := mom d 2 in
  let m3 := mom d 3 in
  let a0 := (m1 / m0)%Z in
  let b1 := (m2 / m0 - a0 * a0)%Z in
  let a1 := ((m3 - 2 * a0 * m2 + a0 * a0 * m1) / (m0 * b1))%Z in
  [(a0, m0); (a1, b1)].

Definition Zrecurrence (n : Z) (dist : Dist Z) (rule : string) (accuracy : Z)
    (algorithm : string) : Exc + list (Coeffs Z) :=
  if (n =? 1)%Z then inr (map Zrecurrence_1 (marginals dist))
  else inl NotImplementedError.

Definition Zeig_1 (c : Coeffs Z) : Exc + (list Z * list Z) :=
  match c with
  | [(a0, b0)] => inr ([a0], [b0])
  | [(a0, b0); (a1, b1)] =>
      if (0 <=? b1)%Z then
        let r := Z.sqrt ((a0 - a1) * (a0 - a1) + 4 * b1)%Z in
        let lo := ((a0 + a1 - r) / 2)%Z in
        let hi := ((a0 + a1 + r) / 2)%Z in
        let w := fun lam : Z =>
          if (b1 =? 0)%Z then (if (lam =? a0)%Z then b0 else 0%Z)
          else (b0 * b1 / (b1 + (lam - a0) * (lam - a0)))%Z in
        inr ([lo; hi], [w lo; w hi])
      else inl (LinAlgError "Invalid recurrence coefficients")
  | _ => inl NotImplementedError
  end.

Fixpoint Zeig (cs : list (Coeffs Z)) : Exc + (list (list Z) * list (list Z)) :=
  match cs with
  | [] => inr ([], [])
  | c :: cs' =>
      match Zeig_1 c, Zeig cs' with
      | inr (x, w), inr (xs, ws) => inr (x :: xs, w :: ws)
      | inl e, _ => inl e
      | _, inl e => inl e
      end
  end.

Definition extZ_radau : Externals Z := {|
  fminbound := fun _ _ _ => inl NotImplementedError;
  get_dependencies := fun _ => false;
  analytical_stieljes := fun _ _ => inl NotImplementedError;
  construct_quadrature := fun _ _ => inl NotImplementedError;
  discretized_stieltjes := fun _ _ _ => inl NotImplementedError;
  inv := fun _ => inl NotImplementedError;
  construct_recurrence_coefficients := Zrecurrence;
  solve_banded := Zsolve_banded;
  coefficients_to_quadrature := Zeig
|}.

(** * Properties *)

Unset Implicit Arguments.

(** ** Computations *)


Lemma result_ret {A : Type} (a : A) : result (ret a) = inr a.
Proof. reflexivity. Qed.

Lemma result_bind {A B : Type} (m : M A) (f : A -> M B) :
  result (bind m f) =
  match result m with inl e => inl e | inr a => result (f a) end.
Proof.
  destruct m as [t [e | a]]; simpl; [reflexivity |].
  destruct (f a); reflexivity.
Qed.

Lemma trace_bind {A B : Type} (m : M A) (f : A -> M B) :
  trace (bind m f) =
  match result m with
  | inl _ => trace m
  | inr a => trace m ++ trace (f a)
  end.
Proof.
  destruct m as [t [e | a]]; simpl; [reflexivity |].
  destruct (f a); reflexivity.
Qed.

Lemma bind_inr_inv {A B : Type} (m : M A) (f : A -> M B) (b : B) :
  result (bind m f) = inr b ->
  exists a, result m = inr a /\ result (f a) = inr b.
Proof.
  rewrite result_bind. destruct (result m) as [e | a]; [discriminate |].
  intros E. exists a. split; [reflexivity | exact E].
Qed.

Lemma mapM_result {A B : Type} (f : A -> M B) (l : list A) (bs : list B) :
  result (mapM f l) = inr bs <->
  Forall2 (fun a b => result (f a) = inr b) l bs.
Proof.
  revert bs. induction l as [| a l IH]; intros bs; simpl.
  - split.
    + intros E. injection E as <-. constructor.
    + intros E. inversion E. reflexivity.
  - rewrite result_bind. split.
    + destruct (result (f a)) as [e | b] eqn:Ea; [discriminate |].
      rewrite result_bind.
      destruct (result (mapM f l)) as [e | bs'] eqn:El; [discriminate |].
      simpl. intros E. injection E as <-.
      constructor; [exact Ea | apply IH; reflexivity].
    + intros E. inversion E as [| a' b l' bs' Ea El]; subst.
      rewrite Ea, result_bind.
      apply IH in El. rewrite El. reflexivity.
Qed.

(** ** Lists *)

Lemma argmin_from_lt {F : Type} `{Num F} (vs : list F) :
  forall best_i best i,
    best_i < i -> argmin_from best_i best i vs < i + length vs.
Proof.
  induction vs as [| v vs IH]; intros best_i best i Hlt; simpl.
  - lia.
  - destruct (ltb v best).
    + specialize (IH i v (S i)). lia.
    + specialize (IH best_i best (S i)). lia.
Qed.

Lemma argmin_lt {F : Type} `{Num F} (vals : list F) :
  vals <> [] -> argmin vals < length vals.
Proof.
  destruct vals as [| v vs]; [congruence |]. intros _. simpl.
  pose proof (@argmin_from_lt _ _ vs 0 v 1). lia.
Qed.

Lemma adjacent_split {F : Type} (l : list F) :
  forall i a b,
    nth_error (adjacent l) i = Some (a, b) ->
    exists l1 l2, l = l1 ++ a :: b :: l2 /\ length l1 = i.
Proof.
  induction l as [| c l IH]; intros i a b E.
  - destruct i; discriminate.
  - destruct l as [| c' l'].
    + destruct i; discriminate.
    + destruct i as [| i].
      * injection E as <- <-. exists [], l'. split; reflexivity.
      * apply IH in E. destruct E as (l1 & l2 & -> & <-).
        exists (c :: l1), l2. split; reflexivity.
Qed.

Lemma insert_split {F : Type} (l1 l2 : list F) (a b x : F) :
  insert (length l1 + 1) x (l1 ++ a :: b :: l2) = l1 ++ a :: x :: b :: l2.
Proof.
  unfold insert. induction l1 as [| c l1 IH]; simpl.
  - reflexivity.
  - f_equal. exact IH.
Qed.

Lemma interior_frame {F : Type} (lo hi : F) (mid : list F) :
  interior (lo :: mid ++ [hi]) = mid.
Proof. unfold interior. simpl. apply removelast_last. Qed.

Section Chains.
Context {F : Type}.
Variable R : F -> F -> Prop.

Lemma sorted_adjacent (l : list F) :
  Sorted R l -> Forall (fun p => R (fst p) (snd p)) (adjacent l).
Proof.
  induction 1 as [| a l Hs IH Hd].
  - constructor.
  - destruct l as [| b l']; [constructor |].
    change (adjacent (a :: b :: l')) with ((a, b) :: adjacent (b :: l')).
    constructor; [inversion Hd; assumption | exact IH].
Qed.

Lemma sorted_insert (l1 l2 : list F) (a b x : F) :
  Sorted R (l1 ++ a :: b :: l2) -> R a x -> R x b ->
  Sorted R (l1 ++ a :: x :: b :: l2).
Proof.
  intros Hs Hax Hxb. induction l1 as [| c l1 IH]; simpl in *.
  - inversion Hs as [| ? ? Hs' _]; subst.
    constructor; [constructor; [exact Hs' |] |]; constructor; assumption.
  - inversion Hs as [| ? ? Hs' Hd]; subst.
    constructor; [apply IH, Hs' |].
    destruct l1; simpl in *; inversion Hd; constructor; assumption.
Qed.

Hypothesis R_irrefl : forall x, ~ R x x.
Hypothesis R_trans : forall x y z, R x y -> R y z -> R x z.

Lemma sorted_fresh (u v : list F) (x : F) :
  Sorted R (u ++ x :: v) -> ~ In x (u ++ v).
Proof.
  intros Hs. apply Sorted_StronglySorted in Hs; [| exact R_trans].
  induction u as [| c u IH]; simpl in *.
  - inversion Hs as [| ? ? _ Hall]; subst. intros Hin.
    rewrite Forall_forall in Hall. exact (R_irrefl x (Hall x Hin)).
  - inversion Hs as [| ? ? Hs' Hall]; subst. intros [E | Hin].
    + subst c. rewrite Forall_forall in Hall.
      apply (R_irrefl x), Hall, in_elt.
    + exact (IH Hs' Hin).
Qed.
End Chains.

Lemma Forall2_nth_error_r {A B : Type} (P : A -> B -> Prop)
    (l : list A) (l' : list B) :
  Forall2 P l l' ->
  forall i y, nth_error l' i = Some y ->
              exists x, nth_error l i = Some x /\ P x y.
Proof.
  induction 1 as [| x y l l' Hxy _ IH]; intros i z E.
  - destruct i; discriminate.
  - destruct i as [| i]; simpl in *.
    + injection E as <-. exists x. split; [reflexivity | exact Hxy].
    + exact (IH i z E).
Qed.

(** ** The Leja node builder *)

Section LejaNodes.
Context {F : Type} `{Num F}.
Variable ext : Externals F.

(** The interval contract of the bounded minimizer, for an order [R]:
    on an interval whose bounds are in order it answers, with a point of
    that interval. *)
Variable R : F -> F -> Prop.
Hypothesis fminbound_within :
  forall f a b, R a b ->
    exists x v, fminbound ext f a b = inr (x, v) /\ R a x /\ R x b.

Lemma leja_calls (f : F -> F) (l : list F) :
  Sorted R l ->
  exists res,
    result (mapM (fun '(a, b) => call CallFminbound (fminbound ext f a b))
                 (adjacent l)) = inr res /\
    Forall2 (fun p r => R (fst p) (fst r) /\ R (fst r) (snd p))
            (adjacent l) res.
Proof.
  intros Hs. apply sorted_adjacent in Hs.
  induction Hs as [| [a b] ps Hab _ (res & E & Hres)].
  - exists []. split; [reflexivity | constructor].
  - simpl in Hab. destruct (fminbound_within f a b Hab) as (x & v & Ex & Hax & Hxb).
    exists ((x, v) :: res). split.
    + apply mapM_result. constructor.
      * simpl. exact Ex.
      * apply mapM_result. exact E.
    + constructor; [split; assumption | exact Hres].
Qed.

Lemma leja_step_spec (d : Marginal F) (l : list F) :
  Sorted R l -> 2 <= length l ->
  exists l1 a b l2 x,
    l = l1 ++ a :: b :: l2 /\ R a x /\ R x b /\
    result (Leja.leja_step ext d l) = inr (l1 ++ a :: x :: b :: l2).
Proof.
  intros Hs Hlen.
  destruct (leja_calls (Leja.objective d l) l Hs) as (res & E & Hres).
  assert (Hl : length res = length l - 1).
  { rewrite <- (Forall2_length Hres). unfold adjacent.
    rewrite length_combine.
    destruct l as [| c l']; [simpl in Hlen; lia |].
    cbn [tl length]. lia. }
  destruct res as [| r0 res']; [simpl in Hl; lia |].
  set (res := r0 :: res') in *.
  assert (Hi : argmin (map snd res) < length res).
  { rewrite <- (length_map snd res). apply argmin_lt. discriminate. }
  destruct (nth_error res (argmin (map snd res))) as [r |] eqn:Er;
    [| apply nth_error_None in Er; lia].
  destruct (Forall2_nth_error_r _ _ _ Hres _ _ Er) as ([a b] & Ep & Hax & Hxb).
  destruct (adjacent_split _ _ _ _ Ep) as (l1 & l2 & El & Hl1).
  exists l1, a, b, l2, (fst r). simpl in Hax, Hxb.
  repeat split; try assumption.
  unfold Leja.leja_step. rewrite result_bind, E.
  subst res. cbv beta iota zeta. rewrite result_ret. f_equal.
  rewrite (map_nth fst), (nth_error_nth _ _ r0 Er).
  rewrite <- Hl1, El. apply insert_split.
Qed.
Lemma leja_step_frame (d : Marginal F) (lo hi : F) (mid : list F) :
  Sorted R (lo :: mid ++ [hi]) ->
  exists p q x,
    mid = p ++ q /\
    result (Leja.leja_step ext d (lo :: mid ++ [hi]))
    = inr (lo :: (p ++ x :: q) ++ [hi]) /\
    Sorted R ((lo :: p) ++ x :: q ++ [hi]).
Proof.
  intros Hs.
  destruct (leja_step_spec d (lo :: mid ++ [hi]) Hs)
    as (l1 & a & b & l2 & x & El & Hax & Hxb & E).
  { simpl. rewrite length_app. simpl. lia. }
  assert (Hs0 : Sorted R (l1 ++ a :: b :: l2)) by (rewrite <- El; exact Hs).
  pose proof (sorted_insert R l1 l2 a b x Hs0 Hax Hxb) as Hs'.
  destruct (exists_last (l := b :: l2)) as (q & z & Eq); [discriminate |].
  destruct l1 as [| c l1]; simpl in El.
  - injection El as <- El. exists [], mid, x. split; [reflexivity |].
    split.
    + rewrite E. simpl. rewrite El. reflexivity.
    + simpl in *. rewrite El. exact Hs'.
  - injection El as <- El. rewrite Eq in El.
    change (l1 ++ a :: q ++ [z]) with (l1 ++ (a :: q) ++ [z]) in El.
    rewrite app_assoc in El. apply app_inj_tail in El.
    destruct El as [-> <-].
    exists (l1 ++ [a]), q, x.
    split; [rewrite <- app_assoc; reflexivity |]. split.
    + rewrite E, Eq. simpl. rewrite <- !app_assoc. reflexivity.
    + rewrite Eq in Hs'. simpl in *. rewrite <- app_assoc. exact Hs'.
Qed.

(** [n] passes of the loop keep both ends and grow the middle by [n]. *)
Lemma leja_loop_frame (d : Marginal F) (lo hi : F) (n : nat) :
  forall mid,
    Sorted R (lo :: mid ++ [hi]) ->
    exists mid',
      result (Leja.leja_loop ext n d (lo :: mid ++ [hi]))
      = inr (lo :: mid' ++ [hi]) /\
      Sorted R (lo :: mid' ++ [hi]) /\
      length mid' = n + length mid /\
      incl mid mid'.
Proof.
  induction n as [| n IH]; intros mid Hs.
  - exists mid. repeat split; [exact Hs | apply incl_refl].
  - destruct (leja_step_frame d lo hi mid Hs) as (p & q & x & -> & E & Hs').
    replace ((lo :: p) ++ x :: q ++ [hi])
      with (lo :: (p ++ x :: q) ++ [hi]) in Hs'
      by (simpl; rewrite <- app_assoc; reflexivity).
    destruct (IH _ Hs') as (mid' & E' & Hs'' & Hlen & Hincl).
    exists mid'. simpl Leja.leja_loop. rewrite result_bind, E.
    repeat split; try assumption.
    + rewrite Hlen, !length_app. simpl. lia.
    + intros y Hy. apply Hincl. apply in_app_iff in Hy.
      apply in_app_iff. simpl. tauto.
Qed.

(** One more pass of the loop is one more step on what the shorter loop
    left. *)
Lemma leja_loop_succ (d : Marginal F) (n : nat) :
  forall l,
    result (Leja.leja_loop ext (S n) d l) =
    match result (Leja.leja_loop ext n d l) with
    | inl e => inl e
    | inr l' => result (Leja.leja_step ext d l')
    end.
Proof.
  induction n as [| n IH]; intros l.
  - simpl. rewrite result_bind.
    destruct (result (Leja.leja_step ext d l)); reflexivity.
  - change (Leja.leja_loop ext (S (S n)) d l)
      with (bind (Leja.leja_step ext d l) (Leja.leja_loop ext (S n) d)).
    change (Leja.leja_loop ext (S n) d l)
      with (bind (Leja.leja_step ext d l) (Leja.leja_loop ext n d)).
    rewrite !result_bind.
    destruct (result (Leja.leja_step ext d l)) as [e | l1];
      [reflexivity | apply IH].
Qed.

(** The node builder, and what [quad_leja] makes of its nodes. *)
Lemma leja_nodes_result (order : PyVal) (k : Z) (d : Marginal F) l :
  py_int order = inr k ->
  result (Leja.leja_loop ext (Z.to_nat k) d
            [fst (range d); mom d 1; snd (range d)]) = inr l ->
  result (Leja.leja_nodes ext order d) = inr (interior l).
Proof.
  intros Ek El. unfold Leja.leja_nodes.
  destruct (range d) as [lower upper]. simpl fst in El. simpl snd in El.
  rewrite result_bind. unfold lift at 1. simpl result at 1. rewrite Ek.
  rewrite result_bind, El. reflexivity.
Qed.

Lemma quad_leja_1d_result (order : PyVal) (d : Marginal F) nodes :
  result (Leja.leja_nodes ext order d) = inr nodes ->
  result (Leja.quad_leja ext order (Joint d [])) =
  match result (Leja.create_weights ext nodes d) with
  | inl e => inl e
  | inr w => inr ([nodes], w)
  end.
Proof.
  intros E. unfold Leja.quad_leja. simpl.
  unfold Leja.quad_leja_1d. rewrite result_bind, E, result_bind.
  destruct (result (Leja.create_weights ext nodes d)); reflexivity.
Qed.
End LejaNodes.

(** The bisecting minimizer of the rational instance honours the interval
    contract for the strict order. *)
Lemma Qfminbound_within (f : Q -> Q) (a b : Q) :
  (a < b)%Q ->
  exists x v, fminbound extQ f a b = inr (x, v) /\ (a < x)%Q /\ (x < b)%Q.
Proof.
  intros Hab. simpl. unfold Qfminbound.
  assert (E : Qle_bool a b = true) by (apply Qle_bool_iff; lra).
  rewrite E. eexists. eexists. split; [reflexivity |].
  rewrite Qred_correct. split.
  - apply Qlt_shift_div_l; lra.
  - apply Qlt_shift_div_r; lra.
Qed.

(** C1 (amended).  On a one-dimensional distribution whose anchors
    (lower bound, first raw moment, upper bound) are in order, and with a
    minimizer that answers inside the interval it is given, the node
    builder of [quad_leja] returns, for the order k, exactly
    max(k, 0) + 1 nodes: the final list without its first and its last
    entry, which are the two support bounds.  The first raw moment is one
    of the returned nodes; when the order is strict (irreflexive and
    transitive), neither the lower nor the upper support bound is among
    the returned nodes.  [quad_leja] returns these nodes as its single row
    of abscissas whenever the weight solver succeeds. *)
Theorem quad_leja_node_count :
  forall (F : Type) (NF : Num F) (ext : Externals F) (R : F -> F -> Prop),
    (forall f a b, R a b ->
       exists x v, fminbound ext f a b = inr (x, v) /\ R a x /\ R x b) ->
    forall (order : PyVal) (k : Z) (d : Marginal F),
      py_int order = inr k ->
      R (fst (range d)) (mom d 1) ->
      R (mom d 1) (snd (range d)) ->
      exists nodes,
        result (Leja.leja_loop ext (Z.to_nat k) d
                  [fst (range d); mom d 1; snd (range d)])
        = inr (fst (range d) :: nodes ++ [snd (range d)]) /\
        result (Leja.leja_nodes ext order d) = inr nodes /\
        length nodes = Z.to_nat k + 1 /\
        In (mom d 1) nodes /\
        ((forall x, ~ R x x) ->
         (forall x y z, R x y -> R y z -> R x z) ->
         ~ In (fst (range d)) nodes /\ ~ In (snd (range d)) nodes) /\
        result (Leja.quad_leja ext order (Joint d [])) =
        match result (Leja.create_weights ext nodes d) with
        | inl e => inl e
        | inr w => inr ([nodes], w)
        end.
Proof.
  intros F NF ext R Hfmin order k d Ek Hlo Hhi.
  assert (Hs : Sorted R (fst (range d) :: [mom d 1] ++ [snd (range d)])).
  { simpl. repeat constructor; assumption. }
  destruct (leja_loop_frame ext R Hfmin d _ _ (Z.to_nat k) _ Hs)
    as (nodes & E & Hs' & Hlen & Hincl).
  exists nodes. simpl app in E at 1.
  assert (En : result (Leja.leja_nodes ext order d) = inr nodes).
  { rewrite (leja_nodes_result ext order k d _ Ek E).
    rewrite interior_frame. reflexivity. }
  split; [exact E |]. split; [exact En |].
  split; [rewrite Hlen; simpl; lia |].
  split; [apply Hincl; left; reflexivity |].
  split; [| apply quad_leja_1d_result, En].
  intros Hirr Htr. split.
  - intros Hin.
    apply (sorted_fresh R Hirr Htr [] (nodes ++ [snd (range d)])
             (fst (range d)) Hs').
    simpl. apply in_app_iff. left. exact Hin.
  - intros Hin.
    apply (sorted_fresh R Hirr Htr (fst (range d) :: nodes) []
             (snd (range d)) Hs').
    rewrite app_nil_r. right. exact Hin.
Qed.

Lemma quad_leja_node_count_witness :
  exists nodes,
    result (Leja.leja_nodes extQ (VInt 2) Uniform01) = inr nodes /\
    length nodes = 3 /\ In (1 # 2)%Q nodes /\
    ~ In 0%Q nodes /\ ~ In 1%Q nodes.
Proof.
  destruct (quad_leja_node_count Q NumQ extQ Qlt Qfminbound_within
              (VInt 2) 2%Z Uniform01 eq_refl)
    as (nodes & _ & E & Hlen & Hin & Hout & _).
  - reflexivity.
  - reflexivity.
  - destruct (Hout Qlt_irrefl Qlt_trans) as [Hlower Hupper].
    exists nodes. repeat split; assumption.
Defined.

(** C1, as stated, fails: at order 0 on Uniform(0, 1) the returned node
    set is not empty, and its node is the first raw moment, one of the
    three anchors. *)
Lemma quad_leja_order0_counterexample :
  exists nodes w,
    result (Leja.quad_leja extQ (VInt 0) (Joint Uniform01 []))
    = inr ([nodes], w) /\
    length nodes <> 0 /\
    In (mom Uniform01 1) nodes.
Proof.
  exists [(1 # 2)%Q], [1%Q]. split; [vm_compute; reflexivity |].
  split; [discriminate | left; reflexivity].
Qed.

(** C3 (amended).  For a strict order on the numbers, a distribution
    whose anchors are strictly ascending and a minimizer that answers
    strictly inside the interval it is given, the node set of [quad_leja]
    at every order k >= 0 is a strict subset of the node set at the order
    k + 1: every node of the first is a node of the second, which has
    exactly one node more, a node the first has not. *)
Theorem quad_leja_nested :
  forall (F : Type) (NF : Num F) (ext : Externals F) (R : F -> F -> Prop),
    (forall x, ~ R x x) ->
    (forall x y z, R x y -> R y z -> R x z) ->
    (forall f a b, R a b ->
       exists x v, fminbound ext f a b = inr (x, v) /\ R a x /\ R x b) ->
    forall (k : Z) (d : Marginal F),
      (0 <= k)%Z ->
      R (fst (range d)) (mom d 1) ->
      R (mom d 1) (snd (range d)) ->
      exists nodes_k nodes_k1,
        result (Leja.leja_nodes ext (VInt k) d) = inr nodes_k /\
        result (Leja.leja_nodes ext (VInt (k + 1)) d) = inr nodes_k1 /\
        (forall w, result (Leja.create_weights ext nodes_k d) = inr w ->
           result (Leja.quad_leja ext (VInt k) (Joint d []))
           = inr ([nodes_k], w)) /\
        (forall w, result (Leja.create_weights ext nodes_k1 d) = inr w ->
           result (Leja.quad_leja ext (VInt (k + 1)) (Joint d []))
           = inr ([nodes_k1], w)) /\
        incl nodes_k nodes_k1 /\
        (exists x, In x nodes_k1 /\ ~ In x nodes_k) /\
        length nodes_k1 = S (length nodes_k).
Proof.
  intros F NF ext R Hirr Htr Hfmin k d Hk Hlo Hhi.
  assert (Hs : Sorted R (fst (range d) :: [mom d 1] ++ [snd (range d)])).
  { simpl. repeat constructor; assumption. }
  destruct (leja_loop_frame ext R Hfmin d _ _ (Z.to_nat k) _ Hs)
    as (mid & E & Hs' & _ & _).
  destruct (leja_step_frame ext R Hfmin d _ _ _ Hs')
    as (p & q & x & -> & Ex & Hsx).
  assert (E1 : result (Leja.leja_loop ext (Z.to_nat (k + 1)) d
                         [fst (range d); mom d 1; snd (range d)])
               = inr (fst (range d) :: (p ++ x :: q) ++ [snd (range d)])).
  { replace (Z.to_nat (k + 1)) with (S (Z.to_nat k)) by lia.
    rewrite leja_loop_succ. simpl app in E at 1. rewrite E. exact Ex. }
  simpl app in E at 1.
  assert (Ek : result (Leja.leja_nodes ext (VInt k) d) = inr (p ++ q)).
  { rewrite (leja_nodes_result ext (VInt k) k d _ eq_refl E).
    rewrite interior_frame. reflexivity. }
  assert (Ek1 : result (Leja.leja_nodes ext (VInt (k + 1)) d)
                = inr (p ++ x :: q)).
  { rewrite (leja_nodes_result ext (VInt (k + 1)) (k + 1) d _ eq_refl E1).
    rewrite interior_frame. reflexivity. }
  exists (p ++ q), (p ++ x :: q). repeat split.
  - exact Ek.
  - exact Ek1.
  - intros w Ew. rewrite (quad_leja_1d_result ext _ d _ Ek), Ew. reflexivity.
  - intros w Ew. rewrite (quad_leja_1d_result ext _ d _ Ek1), Ew. reflexivity.
  - intros y Hy. apply in_app_iff in Hy. apply in_app_iff. simpl. tauto.
  - exists x. split; [apply in_elt |].
    intros Hin. apply (sorted_fresh R Hirr Htr _ _ _ Hsx).
    apply in_app_iff in Hin. apply in_app_iff. simpl.
    rewrite in_app_iff. tauto.
  - rewrite !length_app. simpl. lia.
Qed.

Lemma quad_leja_nested_witness :
  exists nodes_1 nodes_2,
    result (Leja.leja_nodes extQ (VInt 1) Uniform01) = inr nodes_1 /\
    result (Leja.leja_nodes extQ (VInt 2) Uniform01) = inr nodes_2 /\
    incl nodes_1 nodes_2 /\
    (exists x, In x nodes_2 /\ ~ In x nodes_1).
Proof.
  destruct (quad_leja_nested Q NumQ extQ Qlt Qlt_irrefl Qlt_trans
              Qfminbound_within 1%Z Uniform01)
    as (n1 & n2 & E1 & E2 & _ & _ & Hincl & Hnew & _).
  - lia.
  - reflexivity.
  - reflexivity.
  - exists n1, n2. repeat split; assumption.
Defined.

(** C3, as stated for every order, fails below 0: [range(int(order))] is
    empty for a negative order, so on Uniform(0, 1) the orders -1 and
    -1 + 1 = 0 return the same rule, with the one node 1/2, and the node
    set at the order 0 has no node that the node set at the order -1 has
    not. *)
Lemma quad_leja_nested_counterexample :
  result (Leja.quad_leja extQ (VInt (-1)) (Joint Uniform01 []))
  = inr ([[(1 # 2)%Q]], [1%Q]) /\
  result (Leja.quad_leja extQ (VInt (-1 + 1)) (Joint Uniform01 []))
  = inr ([[(1 # 2)%Q]], [1%Q]) /\
  ~ (exists nodes_k nodes_k1 w_k w_k1,
       result (Leja.quad_leja extQ (VInt (-1)) (Joint Uniform01 []))
       = inr ([nodes_k], w_k) /\
       result (Leja.quad_leja extQ (VInt (-1 + 1)) (Joint Uniform01 []))
       = inr ([nodes_k1], w_k1) /\
       incl nodes_k nodes_k1 /\
       exists x, In x nodes_k1 /\ ~ In x nodes_k).
Proof.
  assert (E : result (Leja.quad_leja extQ (VInt (-1)) (Joint Uniform01 []))
              = inr ([[(1 # 2)%Q]], [1%Q])) by (vm_compute; reflexivity).
  assert (E1 : result (Leja.quad_leja extQ (VInt (-1 + 1))
                         (Joint Uniform01 []))
               = inr ([[(1 # 2)%Q]], [1%Q])) by (vm_compute; reflexivity).
  split; [exact E |]. split; [exact E1 |].
  intros (nodes_k & nodes_k1 & w_k & w_k1 & Ek & Ek1 & _ & x & Hin & Hout).
  rewrite E in Ek. rewrite E1 in Ek1.
  injection Ek as <- _. injection Ek1 as <- _.
  exact (Hout Hin).
Qed.

(** ** The Leja weight solver *)

Lemma column0_spec {F : Type} `{Num F} (W : list (list F)) :
  W <> [] ->
  Forall (fun row => row <> []) W ->
  Leja.column0 W = inr (map (fun row => nth 0 row zero) W).
Proof.
  intros Hne Hrows. unfold Leja.column0.
  destruct W as [| row0 W']; [congruence |].
  generalize (row0 :: W') Hrows. clear.
  induction 1 as [| row W Hrow _ IH].
  - reflexivity.
  - cbn [fold_right map]. rewrite IH.
    destruct row; [congruence | reflexivity].
Qed.

(** C2 (amended).  When the Stieltjes stage yields as many polynomials as
    there are nodes, the matrix [create_weights] hands to the inversion is
    n-by-n, row i holding polynomial i at every node; and when the
    inversion answers with an n-by-n matrix W, the weights returned are
    the first column of W: weight i is W[i][0]. *)
Theorem create_weights_first_column :
  forall (F : Type) (NF : Num F) (ext : Externals F)
         (nodes : list F) (d : Marginal F)
         (poly : list (F -> F)) (W : list (list F)),
    nodes <> [] ->
    result (Leja.orthogonal_basis ext nodes d) = inr poly ->
    length poly = length nodes ->
    inv ext (Leja.evaluate poly nodes) = inr W ->
    length W = length nodes ->
    Forall (fun row => length row = length nodes) W ->
    length (Leja.evaluate poly nodes) = length nodes /\
    Forall (fun row => length row = length nodes)
           (Leja.evaluate poly nodes) /\
    (forall i j p, nth_error poly i = Some p -> j < length nodes ->
                   nth j (nth i (Leja.evaluate poly nodes) []) zero
                   = p (nth j nodes zero)) /\
    exists w,
      result (Leja.create_weights ext nodes d) = inr w /\
      length w = length nodes /\
      forall i, i < length nodes ->
                nth i w zero = nth 0 (nth i W []) zero.
Proof.
  intros F NF ext nodes d poly W Hn Hp Hlp HW HlW Hrows.
  split; [unfold Leja.evaluate; rewrite length_map; exact Hlp |].
  split.
  { unfold Leja.evaluate. apply Forall_map, Forall_forall.
    intros p _. apply length_map. }
  split.
  { intros i j p Ep Hj. unfold Leja.evaluate.
    rewrite (nth_error_nth _ _ [] (map_nth_error (fun q => map q nodes) _ _ Ep)).
    rewrite (nth_indep _ zero (p zero)) by (rewrite length_map; exact Hj).
    apply map_nth. }
  exists (map (fun row => nth 0 row zero) W).
  split; [| split].
  - unfold Leja.create_weights. rewrite result_bind, Hp, result_bind.
    unfold call at 1. simpl result at 1. rewrite HW.
    unfold lift. simpl result. apply column0_spec.
    + intros ->. destruct nodes; [congruence | discriminate].
    + eapply Forall_impl; [| exact Hrows]. cbv beta.
      intros row Hrow ->. destruct nodes; [congruence | discriminate].
  - rewrite length_map. exact HlW.
  - intros i Hi.
    rewrite (nth_indep _ zero ((fun row => nth 0 row zero) []))
      by (rewrite length_map, HlW; exact Hi).
    apply (map_nth (fun row => nth 0 row zero)).
Qed.

Lemma create_weights_first_column_witness :
  exists w,
    result (Leja.create_weights extQ [(1 # 4)%Q; (1 # 2)%Q] Uniform01)
    = inr w /\
    nth 0 w 0%Q = 0%Q /\ nth 1 w 0%Q = 1%Q.
Proof.
  destruct (create_weights_first_column Q NumQ extQ
              [(1 # 4)%Q; (1 # 2)%Q] Uniform01
              [fun _ => 1%Q; fun x => Qred (x - mom Uniform01 1)%Q]
              [[0%Q; (-4)%Q]; [1%Q; 4%Q]])
    as (_ & _ & _ & w & E & _ & Hw).
  - discriminate.
  - reflexivity.
  - reflexivity.
  - reflexivity.
  - reflexivity.
  - repeat constructor.
  - exists w. split; [exact E |].
    split; [apply (Hw 0) | apply (Hw 1)]; simpl; lia.
Defined.

(** C2, as stated, fails: for the nodes 1/4 and 1/2 of Uniform(0, 1) the
    weights returned are not the first row of the inverse. *)
Lemma create_weights_first_row_counterexample :
  exists poly W w,
    result (Leja.orthogonal_basis extQ [(1 # 4)%Q; (1 # 2)%Q] Uniform01)
    = inr poly /\
    inv extQ (Leja.evaluate poly [(1 # 4)%Q; (1 # 2)%Q]) = inr W /\
    result (Leja.create_weights extQ [(1 # 4)%Q; (1 # 2)%Q] Uniform01)
    = inr w /\
    nth 0 W [] = [0%Q; (-4)%Q] /\
    w = [0%Q; 1%Q] /\
    w <> nth 0 W [].
Proof.
  eexists. eexists. eexists.
  split; [vm_compute; reflexivity |].
  split; [vm_compute; reflexivity |].
  split; [vm_compute; reflexivity |].
  split; [reflexivity |].
  split; [reflexivity |].
  discriminate.
Qed.

(** ** Dependent marginals *)

(** C7.  On a distribution of more than one dimension whose dependency
    check reports a dependency, [quad_leja] raises the dependency error,
    whatever the order; the dependency check is the only collaborator it
    has called: no minimization, no Stieltjes procedure, no inversion. *)
Theorem quad_leja_dependency_error :
  forall (F : Type) (NF : Num F) (ext : Externals F)
         (order : PyVal) (dist : Dist F),
    1 < len dist ->
    get_dependencies ext (marginals dist) = true ->
    Leja.quad_leja ext order dist =
    ([CallGetDependencies],
     inl (DependencyError
            "Leja quadrature do not supper distribution with dependencies.")).
Proof.
  intros F NF ext order dist Hlen Hdep. unfold Leja.quad_leja.
  apply Nat.ltb_lt in Hlen. rewrite Hlen, Hdep. reflexivity.
Qed.

Lemma quad_leja_dependency_error_witness :
  Leja.quad_leja extQ_dependent (VInt 3) (Joint Uniform01 [Uniform01]) =
  ([CallGetDependencies],
   inl (DependencyError
          "Leja quadrature do not supper distribution with dependencies.")).
Proof.
  apply (quad_leja_dependency_error Q NumQ extQ_dependent (VInt 3)
           (Joint Uniform01 [Uniform01])).
  - unfold len. simpl. lia.
  - reflexivity.
Defined.

(** ** Tensor products *)

Section Tensor.
Context {F : Type} `{Num F}.

Lemma length_combine_rows (args : list (list F)) :
  length (combine args) = npoints args.
Proof.
  induction args as [| xs rest IH]; simpl; [reflexivity |].
  rewrite (flat_map_constant_length (c := npoints rest)); [reflexivity |].
  intros x _. rewrite length_map. exact IH.
Qed.

Lemma nth_flat_map_block {A B : Type} (g : A -> list B) (n : nat)
    (dx : A) (d : B) (xs : list A) :
  (forall x, length (g x) = n) ->
  forall i j, i < length xs -> j < n ->
    nth (i * n + j) (flat_map g xs) d = nth j (g (nth i xs dx)) d.
Proof.
  intros Hg. induction xs as [| x xs IH]; intros i j Hi Hj.
  - simpl in Hi. lia.
  - simpl flat_map. destruct i as [| i].
    + simpl. apply app_nth1. rewrite Hg. exact Hj.
    + replace (S i * n + j) with (length (g x) + (i * n + j))
        by (rewrite Hg; lia).
      rewrite app_nth2_plus. simpl in Hi. simpl nth at 2.
      apply IH; lia.
Qed.

Lemma flat_index_lt (args : list (list F)) (idx : list nat) :
  Forall2 (fun i xs => i < length xs) idx args ->
  flat_index args idx < npoints args.
Proof.
  induction 1 as [| i xs idx args Hi _ IH]; simpl; [lia |]. nia.
Qed.

Lemma nth_combine_select (args : list (list F)) (idx : list nat) :
  Forall2 (fun i xs => i < length xs) idx args ->
  nth (flat_index args idx) (combine args) [] = select args idx.
Proof.
  induction 1 as [| i xs idx args Hi Hall IH]; [reflexivity |].
  simpl.
  rewrite (nth_flat_map_block _ (npoints args) zero);
    [| intros x; rewrite length_map; apply length_combine_rows
     | exact Hi | apply flat_index_lt, Hall].
  rewrite (nth_indep _ [] (cons (nth i xs zero) []))
    by (rewrite length_map, length_combine_rows; apply flat_index_lt, Hall).
  rewrite (map_nth (cons (nth i xs zero))), IH. reflexivity.
Qed.

(** The weight at the row of a multi-index is the product of the selected
    per-dimension weights. *)
Lemma tensor_weights_spec (ws : list (list F)) :
  length (tensor_weights ws) = npoints ws /\
  forall idx,
    Forall2 (fun i w => i < length w) idx ws ->
    nth (flat_index ws idx) (tensor_weights ws) zero
    = prod (select ws idx).
Proof.
  unfold tensor_weights. split.
  - rewrite length_map. apply length_combine_rows.
  - intros idx Hidx.
    rewrite (nth_indep _ zero (prod []))
      by (rewrite length_map, length_combine_rows; apply flat_index_lt, Hidx).
    rewrite (map_nth prod), nth_combine_select by exact Hidx. reflexivity.
Qed.

(** The node at the row of a multi-index has the selected per-dimension
    abscissas as coordinates. *)
Lemma tensor_abscissas_spec (D : nat) (xs : list (list F)) :
  length (tensor_abscissas D xs) = D /\
  Forall (fun row => length row = npoints xs) (tensor_abscissas D xs) /\
  forall idx d,
    Forall2 (fun i x => i < length x) idx xs ->
    d < D ->
    nth (flat_index xs idx) (nth d (tensor_abscissas D xs) []) zero
    = nth d (select xs idx) zero.
Proof.
  unfold tensor_abscissas, transpose. split; [| split].
  - rewrite length_map. apply length_seq.
  - apply Forall_map, Forall_forall. intros d _.
    rewrite length_map. apply length_combine_rows.
  - intros idx d Hidx Hd.
    rewrite (nth_indep _ []
               ((fun d => map (fun r => nth d r zero) (combine xs)) 0))
      by (rewrite length_map, length_seq; exact Hd).
    rewrite (map_nth (fun d => map (fun r => nth d r zero) (combine xs))).
    rewrite seq_nth by exact Hd. simpl Nat.add.
    rewrite (nth_indep _ zero ((fun r => nth d r zero) []))
      by (rewrite length_map, length_combine_rows; apply flat_index_lt, Hidx).
    rewrite (map_nth (fun r => nth d r zero)), nth_combine_select
      by exact Hidx.
    reflexivity.
Qed.

Lemma length_concat_uniform (N : nat) (a : list (list F)) :
  Forall (fun r => length r = N) a -> length (concat a) = length a * N.
Proof.
  induction 1 as [| r a Hr _ IH]; simpl; [reflexivity |].
  rewrite length_app, IH, Hr. reflexivity.
Qed.

Lemma chunks_concat (N : nat) (a : list (list F)) :
  Forall (fun r => length r = N) a ->
  map (fun i => firstn N (skipn (i * N) (concat a))) (seq 0 (length a)) = a.
Proof.
  induction 1 as [| r a Hr _ IH]; [reflexivity |].
  cbn [length seq map concat]. rewrite <- seq_shift, map_map.
  f_equal.
  - simpl. rewrite <- Hr, <- (Nat.add_0_r (length r)), firstn_app_2.
    simpl. apply app_nil_r.
  - rewrite <- IH at 2. apply map_ext. intros i.
    replace (S i * N) with (length r + i * N) by lia.
    rewrite skipn_app, skipn_all2 by lia.
    replace (length r + i * N - length r) with (i * N) by lia.
    reflexivity.
Qed.

(** Reshaping an array to the shape it has changes nothing. *)
Lemma reshape_uniform (D N : nat) (a : list (list F)) :
  D <> 0 -> length a = D ->
  Forall (fun r => length r = N) a ->
  GaussRadau.reshape D a = inr a.
Proof.
  intros HD Hlen Hrows. unfold GaussRadau.reshape.
  rewrite (length_concat_uniform N a Hrows), Hlen.
  rewrite (Nat.mul_comm D N), Nat.Div0.mod_mul, Nat.div_mul by exact HD.
  simpl. f_equal. rewrite <- Hlen. apply chunks_concat, Hrows.
Qed.
End Tensor.

(** ** The order of a multivariate Leja rule *)

Lemma bind_ret_l {A B : Type} (a : A) (f : A -> M B) :
  bind (lift (inr a)) f = f a.
Proof. unfold bind, lift. destruct (f a). reflexivity. Qed.

Lemma mapM_ext_in {A B : Type} (f g : A -> M B) (l : list A) :
  (forall a, In a l -> f a = g a) -> mapM f l = mapM g l.
Proof.
  induction l as [| a l IH]; intros Hfg; simpl; [reflexivity |].
  rewrite (Hfg a (or_introl eq_refl)), IH; [reflexivity |].
  intros b Hb. apply Hfg. right. exact Hb.
Qed.

Lemma mapM_map {A B C : Type} (f : B -> M C) (g : A -> B) (l : list A) :
  mapM f (map g l) = mapM (fun a => f (g a)) l.
Proof.
  induction l as [| a l IH]; simpl; [reflexivity |]. rewrite IH. reflexivity.
Qed.

Lemma combine_seq {A B : Type} (dA : A) (dB : B) (l : list A) :
  forall l' : list B,
    length l = length l' ->
    List.combine l l'
    = map (fun i => (nth i l dA, nth i l' dB)) (seq 0 (length l')).
Proof.
  induction l as [| a l IH]; intros [| b l'] Hlen; try discriminate.
  - reflexivity.
  - cbn [List.combine length seq map nth]. f_equal.
    rewrite <- seq_shift, map_map. apply IH.
    simpl in Hlen. lia.
Qed.

Lemma combine_repeat {A B : Type} (a : A) (l : list B) :
  List.combine (repeat a (length l)) l = map (fun b => (a, b)) l.
Proof.
  induction l as [| b l IH]; simpl; [reflexivity |]. rewrite IH. reflexivity.
Qed.

(** C10.  On a distribution of more than one dimension without
    dependencies, [quad_leja] gives every dimension the order itself when
    the order is a Python int; for any other order it indexes the order
    with the dimension: a sequence gives dimension i the order
    [order[i]], and an integer scalar that is no int, which cannot be
    indexed, makes the call fail at the first dimension, before any node
    is built. *)
Theorem quad_leja_order_dispatch :
  forall (F : Type) (NF : Num F) (ext : Externals F) (dist : Dist F),
    1 < len dist ->
    get_dependencies ext (marginals dist) = false ->
    let per_dimension := fun orders : list PyVal =>
      _ <- call CallGetDependencies (inr false) ;;
      out <- mapM (fun od => Leja.quad_leja_1d ext (fst od) (snd od))
                  (List.combine orders (marginals dist)) ;;
      ret (tensor_abscissas (len dist) (map Leja.first_row out),
           tensor_weights (map snd out)) in
    (forall z,
       Leja.quad_leja ext (VInt z) dist
       = per_dimension (repeat (VInt z) (len dist))) /\
    (forall order,
       isinstance_int order = false ->
       Leja.quad_leja ext order dist =
       (_ <- call CallGetDependencies (inr false) ;;
        out <- mapM (fun i =>
                       o <- lift (getitem order i) ;;
                       Leja.quad_leja_1d ext o
                         (nth i (marginals dist) (first_marginal dist)))
                    (seq 0 (len dist)) ;;
        ret (tensor_abscissas (len dist) (map Leja.first_row out),
             tensor_weights (map snd out)))) /\
    (forall items,
       length items = len dist ->
       Leja.quad_leja ext (VSeq items) dist = per_dimension items) /\
    (forall z,
       Leja.quad_leja ext (VNpInt z) dist
       = ([CallGetDependencies], inl IndexError)).
Proof.
  intros F NF ext dist Hlen Hdep per_dimension.
  assert (Hbranch : (1 <? len dist) = true) by (apply Nat.ltb_lt, Hlen).
  assert (Hseq : forall order,
             isinstance_int order = false ->
             Leja.quad_leja ext order dist =
             (_ <- call CallGetDependencies (inr false) ;;
              out <- mapM (fun i =>
                             o <- lift (getitem order i) ;;
                             Leja.quad_leja_1d ext o
                               (nth i (marginals dist) (first_marginal dist)))
                          (seq 0 (len dist)) ;;
              ret (tensor_abscissas (len dist) (map Leja.first_row out),
                   tensor_weights (map snd out)))).
  { intros order Hint. unfold Leja.quad_leja.
    rewrite Hbranch, Hdep, Hint. reflexivity. }
  split; [| split; [exact Hseq | split]].
  - intros z. unfold Leja.quad_leja, per_dimension.
    rewrite Hbranch, Hdep. simpl isinstance_int. cbv iota.
    unfold len. rewrite combine_repeat, mapM_map. reflexivity.
  - intros items Hitems. rewrite (Hseq (VSeq items) eq_refl).
    unfold per_dimension.
    rewrite (combine_seq (VInt 0) (first_marginal dist) items
               (marginals dist) Hitems).
    rewrite mapM_map. fold (len dist).
    rewrite (mapM_ext_in
               (fun i => o <- lift (getitem (VSeq items) i) ;;
                         Leja.quad_leja_1d ext o
                           (nth i (marginals dist) (first_marginal dist)))
               (fun i => Leja.quad_leja_1d ext
                           (fst (nth i items (VInt 0),
                                 nth i (marginals dist) (first_marginal dist)))
                           (snd (nth i items (VInt 0),
                                 nth i (marginals dist) (first_marginal dist)))));
      [reflexivity |].
    intros i Hi. apply in_seq in Hi. cbn [fst snd getitem].
    destruct (nth_error items i) as [o |] eqn:Eo.
    + rewrite (nth_error_nth _ _ _ Eo), bind_ret_l. reflexivity.
    + apply nth_error_None in Eo. lia.
  - intros z. rewrite (Hseq (VNpInt z) eq_refl).
    unfold len in *. destruct (marginals dist) as [| m ms].
    + simpl in Hlen. lia.
    + reflexivity.
Qed.

Lemma quad_leja_order_dispatch_witness :
  Leja.quad_leja extQ (VInt 1) (Joint Uniform01 [Uniform01])
  = Leja.quad_leja extQ (VSeq [VInt 1; VInt 1]) (Joint Uniform01 [Uniform01])
  /\ Leja.quad_leja extQ (VNpInt 1) (Joint Uniform01 [Uniform01])
     = ([CallGetDependencies], inl IndexError).
Proof.
  destruct (quad_leja_order_dispatch Q NumQ extQ (Joint Uniform01 [Uniform01]))
    as (Hint & _ & Hseq & Hnp).
  - unfold len. simpl. lia.
  - reflexivity.
  - split; [| apply Hnp].
    rewrite Hint, (Hseq [VInt 1; VInt 1] eq_refl). reflexivity.
Defined.

(** ** The Radau modification *)

Section Radau.
Context {F : Type} `{Num F}.
Variable ext : Externals F.

Lemma load_alloc (h : GaussRadau.Heap) (a b : Coeffs F) (p : nat) :
  GaussRadau.load h p = inr a ->
  p < length h /\ GaussRadau.load (h ++ [b]) p = inr a.
Proof.
  unfold GaussRadau.load. intros E.
  destruct (nth_error h p) as [a' |] eqn:Ep; [| discriminate].
  assert (Hp : p < length h) by (apply nth_error_Some; congruence).
  split; [exact Hp |]. rewrite nth_error_app1, Ep by exact Hp. exact E.
Qed.

Lemma update_alloc (h : GaussRadau.Heap) (a b : Coeffs F) :
  GaussRadau.update (h ++ [a]) (length h) b = h ++ [b].
Proof. induction h as [| c h IH]; simpl; [| rewrite IH]; reflexivity. Qed.

Lemma load_new (h : GaussRadau.Heap) (b : Coeffs F) :
  GaussRadau.load (h ++ [b]) (length h) = inr b.
Proof.
  unfold GaussRadau.load.
  rewrite nth_error_app2, Nat.sub_diag by lia. reflexivity.
Qed.

Lemma right_hand_side_inv (c : Coeffs F) (rhs : list F) :
  GaussRadau.right_hand_side c = inr rhs ->
  exists c0 a b,
    c = c0 ++ [(a, b)] /\ c0 <> [] /\
    rhs = repeat zero (length c0 - 1) ++ [b].
Proof.
  unfold GaussRadau.right_hand_side. rewrite !length_map.
  destruct c as [| ab c'] using rev_ind; [discriminate |]. clear IHc'.
  destruct ab as [a b]. rewrite length_app. simpl length.
  rewrite Nat.add_1_r. simpl GaussRadau.zeros_pred.
  rewrite map_app. simpl map.
  assert (El : GaussRadau.last_item (map snd c' ++ [b]) = inr b).
  { destruct (map snd c') as [| x l]; [reflexivity |].
    simpl. f_equal. apply last_last. }
  rewrite El. intros E. exists c', a, b.
  destruct c' as [| ab0 c'']; [discriminate |].
  split; [reflexivity |]. split; [discriminate |].
  cbn [length] in *. rewrite Nat.sub_succ, Nat.sub_0_r.
  rewrite <- (Nat.add_1_r (length c'')), repeat_app in E.
  cbn [repeat] in E.
  assert (Hv : forall (v : list F) (x : F),
             v <> [] ->
             GaussRadau.set_last v x = inr (removelast v ++ [x])).
  { intros [| y v] x Hv; [congruence | reflexivity]. }
  rewrite Hv in E by (destruct (repeat zero (length c'')); discriminate).
  injection E as <-. rewrite removelast_last. reflexivity.
Qed.

Lemma set_last_alpha_snoc (c0 : Coeffs F) (a b x : F) :
  GaussRadau.set_last_alpha (c0 ++ [(a, b)]) x = inr (c0 ++ [(x, b)]).
Proof.
  unfold GaussRadau.set_last_alpha.
  destruct c0 as [| ab c0']; [reflexivity |].
  rewrite <- app_comm_cons. f_equal.
  rewrite app_comm_cons, removelast_last, last_last. reflexivity.
Qed.

(** What [radau_jakobi] does when the banded solve answers: one call, a
    fresh array holding the input with its last alpha replaced, and the
    heap it found extended by that array. *)
Lemma radau_jakobi_run (h : GaussRadau.Heap) (p : nat) (fixed_point : F)
    (c0 : Coeffs F) (a b : F) (rhs delta0 : list F) (delta_last : F) :
  GaussRadau.load h p = inr (c0 ++ [(a, b)]) ->
  GaussRadau.right_hand_side (c0 ++ [(a, b)]) = inr rhs ->
  solve_banded ext (GaussRadau.bands_j (c0 ++ [(a, b)]) fixed_point) rhs
  = inr (delta0 ++ [delta_last]) ->
  GaussRadau.radau_jakobi ext h p fixed_point =
  ([CallSolveBanded],
   inr (length h, h ++ [c0 ++ [(add fixed_point delta_last, b)]])).
Proof.
  intros Eload Erhs Esolve. unfold GaussRadau.radau_jakobi.
  rewrite Eload. unfold lift at 1. unfold bind at 1.
  rewrite Erhs. unfold lift at 1. unfold bind at 1.
  rewrite Esolve. unfold call, try_except, GaussRadau.alloc, bind, lift, ret.
  cbv beta iota zeta.
  assert (El : GaussRadau.last_item (delta0 ++ [delta_last])
               = inr delta_last).
  { destruct delta0 as [| x l]; [reflexivity |].
    simpl. f_equal. apply last_last. }
  rewrite El, set_last_alpha_snoc, update_alloc. reflexivity.
Qed.
End Radau.

Lemma nth_map_seq {A : Type} (f : nat -> A) (n i : nat) (d : A) :
  i < n -> nth i (map f (seq 0 n)) d = f i.
Proof.
  intros Hi. rewrite (nth_indep _ d (f 0)) by (rewrite length_map, length_seq; exact Hi).
  rewrite map_nth, seq_nth by exact Hi. reflexivity.
Qed.

Lemma nth_tl {A : Type} (l : list A) (k : nat) (d : A) :
  nth k (tl l) d = nth (S k) l d.
Proof. destruct l; destruct k; reflexivity. Qed.

Lemma nth_map_in {A B : Type} (g : A -> B) (l : list A) (i : nat)
    (dA : A) (dB : B) :
  i < length l -> nth i (map g l) dB = g (nth i l dA).
Proof.
  intros Hi. rewrite (nth_indep _ dB (g dA)) by (rewrite length_map; exact Hi).
  apply map_nth.
Qed.

Section RadauEigen.
Context {F : Type} `{Num F}.
Hypothesis Rth : ring_theory zero one add mul sub neg (@eq F).
Add Ring Fring : Rth.

(** Golub's modification: when delta solves the banded system, the
    vector (delta, -sqrt(beta_m)) is mapped by the modified Jacobi
    matrix to its multiple by the fixed point. *)
Lemma radau_eigenvector (c0 : Coeffs F) (a b fp : F)
    (delta0 : list F) (delta_last : F) :
  length (delta0 ++ [delta_last]) = length c0 ->
  GaussRadau.banded_mul (GaussRadau.bands_j (c0 ++ [(a, b)]) fp)
    (delta0 ++ [delta_last])
  = repeat zero (length c0 - 1) ++ [b] ->
  mul (fsqrt b) (fsqrt b) = b ->
  GaussRadau.jacobi_mul (c0 ++ [(add fp delta_last, b)])
    ((delta0 ++ [delta_last]) ++ [neg (fsqrt b)])
  = map (mul fp) ((delta0 ++ [delta_last]) ++ [neg (fsqrt b)]).
Proof.
  intros Hlen Hsolve Hss.
  set (delta := delta0 ++ [delta_last]) in *.
  set (s := fsqrt b) in *.
  set (m := length c0) in *.
  set (alpha0 := map fst c0).
  set (sigma0 := map fsqrt (map snd c0)).
  assert (Hla : length alpha0 = m) by apply length_map.
  assert (Hls : length sigma0 = m)
    by (unfold sigma0; rewrite !length_map; reflexivity).
  assert (Hm : length delta0 + 1 = m)
    by (unfold delta in Hlen; rewrite length_app in Hlen; exact Hlen).
  unfold GaussRadau.banded_mul, GaussRadau.bands_j, GaussRadau.bands_a
    in Hsolve.
  cbv zeta in Hsolve. cbn [fst snd nth] in Hsolve.
  rewrite !map_app in Hsolve. cbn [map fst snd] in Hsolve.
  rewrite !removelast_last in Hsolve.
  fold alpha0 sigma0 s in Hsolve. rewrite Hlen in Hsolve.
  unfold GaussRadau.jacobi_mul. cbv zeta.
  rewrite !map_app. cbn [map fst snd]. fold alpha0 sigma0 s.
  rewrite !length_app. cbn [length]. fold m.
  rewrite seq_app, map_app. cbn [seq map Nat.add].
  f_equal.
  - apply (nth_ext _ _ zero zero).
    { rewrite !length_map, length_seq. symmetry. exact Hlen. }
    intros i Hi. rewrite length_map, length_seq in Hi.
    rewrite (nth_map_seq _ m i zero Hi).
    rewrite (nth_map_in (mul fp) delta i zero zero) by (rewrite Hlen; exact Hi).
    apply (f_equal (fun l => nth i l zero)) in Hsolve.
    rewrite (nth_map_seq _ m i zero Hi) in Hsolve.
    rewrite (nth_map_in (fun x => sub x fp) alpha0 i zero zero) in Hsolve
      by (rewrite Hla; exact Hi).
    rewrite (app_nth1 alpha0) by (rewrite Hla; exact Hi).
    rewrite (app_nth1 delta) by (rewrite Hlen; exact Hi).
    assert (E1 :
      match i with
      | 0 => zero
      | S k => mul (nth i (sigma0 ++ [s]) zero)
                   (nth k (delta ++ [neg s]) zero)
      end
      = match i with
        | 0 => zero
        | S k => mul (nth k (tl (sigma0 ++ [s])) zero) (nth k delta zero)
        end).
    { destruct i as [| k]; [reflexivity |].
      rewrite nth_tl, (app_nth1 delta) by (rewrite Hlen; lia). reflexivity. }
    rewrite E1. clear E1.
    set (T1 := match i with
               | 0 => zero
               | S k => mul (nth k (tl (sigma0 ++ [s])) zero)
                            (nth k delta zero)
               end) in *.
    destruct (Nat.eq_dec (S i) m) as [Ei | Ei].
    + assert (Eb1 : (S i <? m) = false) by (apply Nat.ltb_ge; lia).
      assert (Eb2 : (S i <? m + 1) = true) by (apply Nat.ltb_lt; lia).
      rewrite Eb1 in Hsolve. rewrite Eb2.
      rewrite Ei, <- Hls, nth_middle.
      rewrite Hls, <- Hlen, nth_middle.
      assert (Er : nth i (repeat zero (m - 1) ++ [b]) zero = b).
      { replace i with (length (repeat zero (m - 1)))
          by (rewrite repeat_length; lia).
        apply nth_middle. }
      rewrite Er in Hsolve.
      transitivity
        (add (sub (add (add T1 (mul (sub (nth i alpha0 zero) fp)
                                     (nth i delta zero))) zero)
                  (mul s s))
             (mul fp (nth i delta zero))); [ring |].
      rewrite Hsolve, Hss. ring.
    + assert (Eb1 : (S i <? m) = true) by (apply Nat.ltb_lt; lia).
      assert (Eb2 : (S i <? m + 1) = true) by (apply Nat.ltb_lt; lia).
      rewrite Eb1 in Hsolve. rewrite Eb2.
      rewrite (app_nth1 sigma0) by (rewrite Hls; lia).
      rewrite (app_nth1 delta) by (rewrite Hlen; lia).
      rewrite (app_nth1 (repeat zero (m - 1))) in Hsolve
        by (rewrite repeat_length; lia).
      rewrite nth_repeat in Hsolve.
      transitivity
        (add (add (add T1 (mul (sub (nth i alpha0 zero) fp)
                                (nth i delta zero)))
                  (mul (nth (S i) sigma0 zero) (nth (S i) delta zero)))
             (mul fp (nth i delta zero))); [ring |].
      rewrite Hsolve. ring.
  - f_equal.
    assert (Eb : (S m <? m + 1) = false) by (apply Nat.ltb_ge; lia).
    rewrite Eb. destruct m as [| k] eqn:Em; [lia |].
    assert (E1 : nth (S k) (sigma0 ++ [s]) zero = s)
      by (rewrite <- Hls; apply nth_middle).
    assert (E2 : nth (S k) (alpha0 ++ [add fp delta_last]) zero
                 = add fp delta_last)
      by (rewrite <- Hla; apply nth_middle).
    assert (E3 : nth (S k) (delta ++ [neg s]) zero = neg s)
      by (rewrite <- Hlen; apply nth_middle).
    assert (E4 : nth k (delta ++ [neg s]) zero = delta_last).
    { rewrite (app_nth1 delta) by (rewrite Hlen; lia).
      replace k with (length delta0) by lia. apply nth_middle. }
    rewrite E1, E2, E3, E4. ring.
Qed.
End RadauEigen.

Section RadauModifier.
Context {F : Type} `{Num F}.
Variable ext : Externals F.
Hypothesis Rth : ring_theory zero one add mul sub neg (@eq F).
Add Ring Fring' : Rth.

(** C4.  In exact arithmetic, when the banded solve answers with the
    solution delta of the system it is given, [radau_jakobi] returns a
    fresh array of the length of its input whose betas are those of the
    input and whose alphas are those of the input except the last, which
    is [fixed_point + delta[-1]]; the array of the caller, and every
    other array, is left as it was; and for a last beta with an exact,
    non-zero square root the fixed point is an eigenvalue of the Jacobi
    matrix of the returned coefficients, hence one of the abscissas of
    any eigen-solver that returns every eigenvalue. *)
Theorem radau_jakobi_fixes_eigenvalue :
  forall (h : GaussRadau.Heap) (p : nat) (fixed_point : F)
         (c : Coeffs F) (rhs delta : list F),
    GaussRadau.load h p = inr c ->
    GaussRadau.right_hand_side c = inr rhs ->
    solve_banded ext (GaussRadau.bands_j c fixed_point) rhs = inr delta ->
    length delta = length rhs ->
    GaussRadau.banded_mul (GaussRadau.bands_j c fixed_point) delta = rhs ->
    mul (fsqrt (snd (last c (zero, zero)))) (fsqrt (snd (last c (zero, zero))))
    = snd (last c (zero, zero)) ->
    fsqrt (snd (last c (zero, zero))) <> zero ->
    exists c',
      GaussRadau.radau_jakobi ext h p fixed_point
      = ([CallSolveBanded], inr (length h, h ++ [c'])) /\
      length h <> p /\
      (forall q a, GaussRadau.load h q = inr a ->
                   GaussRadau.load (h ++ [c']) q = inr a) /\
      GaussRadau.load (h ++ [c']) (length h) = inr c' /\
      length c' = length c /\
      map snd c' = map snd c /\
      removelast (map fst c') = removelast (map fst c) /\
      last (map fst c') zero = add fixed_point (last delta zero) /\
      GaussRadau.is_eigenvalue c' fixed_point /\
      forall abscissas,
        (forall lam, GaussRadau.is_eigenvalue c' lam -> In lam abscissas) ->
        In fixed_point abscissas.
Proof.
  intros h p fp c rhs delta Eload Erhs Esolve Hlen Hmul Hss Hs.
  destruct (right_hand_side_inv c rhs Erhs) as (c0 & a & b & -> & Hc0 & ->).
  rewrite last_last in Hss, Hs. cbn [snd] in Hss, Hs.
  assert (Hm : length delta = length c0).
  { rewrite Hlen, length_app, repeat_length. simpl.
    destruct c0; [congruence | simpl; lia]. }
  destruct (exists_last (l := delta)) as (delta0 & dl & ->).
  { intros ->. destruct c0; [congruence | discriminate]. }
  exists (c0 ++ [(add fp dl, b)]).
  assert (Heig : GaussRadau.is_eigenvalue (c0 ++ [(add fp dl, b)]) fp).
  { exists ((delta0 ++ [dl]) ++ [neg (fsqrt b)]). split; [| split].
    - rewrite !length_app in *. simpl in *. lia.
    - exists (length (delta0 ++ [dl])). rewrite nth_middle.
      intros E. apply Hs.
      transitivity (neg (neg (fsqrt b))); [ring | rewrite E; ring].
    - apply (radau_eigenvector Rth c0 a b fp delta0 dl); assumption. }
  split; [exact (radau_jakobi_run ext h p fp c0 a b _ delta0 dl
                   Eload Erhs Esolve) |].
  split; [destruct (load_alloc h (c0 ++ [(a, b)]) [] p Eload); lia |].
  split; [intros q a' Eq; apply (load_alloc h a' _ q Eq) |].
  split; [apply load_new |].
  split; [rewrite !length_app; reflexivity |].
  split; [rewrite !map_app; reflexivity |].
  split; [rewrite !map_app; simpl; rewrite !removelast_last; reflexivity |].
  split; [rewrite map_app; simpl; rewrite !last_last; reflexivity |].
  split; [exact Heig |].
  intros abscissas Hall. apply Hall, Heig.
Qed.
End RadauModifier.

Lemma radau_jakobi_fixes_eigenvalue_witness :
  exists c',
    GaussRadau.radau_jakobi extZ [[(0, 1); (5, 4)]%Z] 0 (-2)%Z
    = ([CallSolveBanded], inr (1, [[(0, 1); (5, 4)]%Z; c'])) /\
    GaussRadau.is_eigenvalue c' (-2)%Z.
Proof.
  destruct (@radau_jakobi_fixes_eigenvalue Z NumZ extZ Zth
              [[(0, 1); (5, 4)]%Z] 0 (-2)%Z [(0, 1); (5, 4)]%Z
              [4%Z] [2%Z])
    as (c' & E & _ & _ & _ & _ & _ & _ & _ & Heig & _).
  - reflexivity.
  - reflexivity.
  - reflexivity.
  - reflexivity.
  - reflexivity.
  - reflexivity.
  - discriminate.
  - exists c'. split; [exact E | exact Heig].
Defined.

(** ** The Gauss-Radau generator *)

Section RadauGenerator.
Context {F : Type} `{Num F}.
Variable ext : Externals F.

Lemma radau_jakobi_singular (h : GaussRadau.Heap) (p : nat) (fixed_point : F)
    (c : Coeffs F) (rhs : list F) (msg : string) :
  GaussRadau.load h p = inr c ->
  GaussRadau.right_hand_side c = inr rhs ->
  solve_banded ext (GaussRadau.bands_j c fixed_point) rhs
  = inl (LinAlgError msg) ->
  GaussRadau.radau_jakobi ext h p fixed_point =
  ([CallSolveBanded],
   inl (LinAlgError ("Illegal Radau fixed point: " ++ repr fixed_point))).
Proof.
  intros Eload Erhs Esolve. unfold GaussRadau.radau_jakobi.
  rewrite Eload. unfold lift at 1. unfold bind at 1.
  rewrite Erhs. unfold lift at 1. unfold bind at 1.
  rewrite Esolve. reflexivity.
Qed.

(** A successful modification extends the heap by one array. *)
Lemma radau_jakobi_heap (h h1 : GaussRadau.Heap) (p p1 : nat)
    (fixed_point : F) :
  result (GaussRadau.radau_jakobi ext h p fixed_point) = inr (p1, h1) ->
  exists c', p1 = length h /\ h1 = h ++ [c'].
Proof.
  unfold GaussRadau.radau_jakobi.
  destruct (GaussRadau.load h p) as [e | c]; [discriminate |].
  unfold lift at 1. unfold bind at 1.
  destruct (GaussRadau.right_hand_side c) as [e | rhs]; [discriminate |].
  unfold lift at 1. unfold bind at 1.
  destruct (solve_banded ext (GaussRadau.bands_j c fixed_point) rhs)
    as [e | delta].
  { destruct e; discriminate. }
  unfold call, try_except, GaussRadau.alloc, bind, lift, ret.
  cbv beta iota zeta.
  destruct (GaussRadau.last_item delta) as [e | dl]; [discriminate |].
  destruct (GaussRadau.set_last_alpha c (add fixed_point dl)) as [e | c'];
    [discriminate |].
  simpl. intros E. injection E as <- <-.
  exists c'. split; [reflexivity | apply update_alloc].
Qed.

Lemma radau_all_fails (args : list (F * nat)) :
  forall h : GaussRadau.Heap,
    Exists (fun fp_p =>
              exists c rhs msg,
                GaussRadau.load h (snd fp_p) = inr c /\
                GaussRadau.right_hand_side c = inr rhs /\
                solve_banded ext (GaussRadau.bands_j c (fst fp_p)) rhs
                = inl (LinAlgError msg))
           args ->
    exists e, result (GaussRadau.radau_all ext h args) = inl e.
Proof.
  induction args as [| [fp p] args IH]; intros h Hex.
  - inversion Hex.
  - cbn [GaussRadau.radau_all]. rewrite result_bind.
    destruct (result (GaussRadau.radau_jakobi ext h p fp))
      as [e | [p1 h1]] eqn:Ej; [exists e; reflexivity |].
    inversion Hex as [? ? (c & rhs & msg & El & Er & Es) | ? ? Hex']; subst.
    + cbn [fst snd] in *.
      rewrite (radau_jakobi_singular h p fp c rhs msg El Er Es) in Ej.
      discriminate.
    + destruct (radau_jakobi_heap h h1 p p1 fp Ej) as (c' & -> & ->).
      destruct (IH (h ++ [c'])) as [e Ee].
      { eapply Exists_impl; [| exact Hex'].
        intros [fp' p'] (c & rhs & msg & El & Er & Es).
        exists c, rhs, msg. split; [| split; assumption].
        apply (load_alloc h c c' _ El). }
      exists e. rewrite result_bind, Ee. reflexivity.
Qed.

Lemma alloc_all_spec (arrays : list (Coeffs F)) :
  forall h : GaussRadau.Heap,
    GaussRadau.alloc_all h arrays
    = (seq (length h) (length arrays), h ++ arrays).
Proof.
  induction arrays as [| a arrays IH]; intros h; simpl.
  - rewrite app_nil_r. reflexivity.
  - rewrite IH, length_app, <- app_assoc, Nat.add_1_r. reflexivity.
Qed.

(** C6.  When the banded solve of [radau_jakobi] is singular, the
    modification raises the illegal-fixed-point error, whose message ends
    with the fixed point it was given, after the one call of the solver;
    and [quad_gauss_radau], at an order other than 0, returns no rule when
    this happens in some dimension: its result is an exception. *)
Theorem radau_illegal_fixed_point :
  (forall (h : GaussRadau.Heap) (p : nat) (fixed_point : F)
          (c : Coeffs F) (rhs : list F) (msg : string),
     GaussRadau.load h p = inr c ->
     GaussRadau.right_hand_side c = inr rhs ->
     solve_banded ext (GaussRadau.bands_j c fixed_point) rhs
     = inl (LinAlgError msg) ->
     GaussRadau.radau_jakobi ext h p fixed_point =
     ([CallSolveBanded],
      inl (LinAlgError ("Illegal Radau fixed point: " ++ repr fixed_point))))
  /\
  (forall (order : Z) (dist : Dist F) (fixed_point : option F)
          (rule : string) (accuracy : Z) (recurrence_algorithm : string)
          (coefficients : list (Coeffs F)),
     order <> 0%Z ->
     construct_recurrence_coefficients ext (2 * order - 1) dist rule
       accuracy recurrence_algorithm = inr coefficients ->
     Exists (fun fp_c =>
               exists rhs msg,
                 GaussRadau.right_hand_side (snd fp_c) = inr rhs /\
                 solve_banded ext (GaussRadau.bands_j (snd fp_c) (fst fp_c))
                   rhs = inl (LinAlgError msg))
            (List.combine (GaussRadau.resolve_fixed_point dist fixed_point)
                          coefficients) ->
     exists e,
       result (GaussRadau.quad_gauss_radau ext order dist fixed_point rule
                 accuracy recurrence_algorithm) = inl e).
Proof.
  split; [exact radau_jakobi_singular |].
  intros order dist fixed_point rule accuracy algo coefficients
         Horder Ecoef Hex.
  unfold GaussRadau.quad_gauss_radau.
  apply Z.eqb_neq in Horder. rewrite Horder, Ecoef.
  unfold call at 1. unfold bind at 1.
  rewrite alloc_all_spec. cbn [length app].
  set (fps := GaussRadau.resolve_fixed_point dist fixed_point) in *.
  destruct (radau_all_fails
              (List.combine fps (seq 0 (length coefficients))) coefficients)
    as [e Ee].
  { clearbody fps. clear Ecoef.
    assert (Hgen : forall (pre cs : list (Coeffs F)) (fs : list F),
               Exists (fun fp_c =>
                         exists rhs msg,
                           GaussRadau.right_hand_side (snd fp_c) = inr rhs /\
                           solve_banded ext
                             (GaussRadau.bands_j (snd fp_c) (fst fp_c)) rhs
                           = inl (LinAlgError msg))
                      (List.combine fs cs) ->
               Exists (fun fp_p =>
                         exists c rhs msg,
                           GaussRadau.load (pre ++ cs) (snd fp_p) = inr c /\
                           GaussRadau.right_hand_side c = inr rhs /\
                           solve_banded ext
                             (GaussRadau.bands_j c (fst fp_p)) rhs
                           = inl (LinAlgError msg))
                      (List.combine fs (seq (length pre) (length cs)))).
    { intros pre cs. revert pre.
      induction cs as [| c cs IH]; intros pre fs Hx.
      - destruct fs; inversion Hx.
      - destruct fs as [| f fs]; [inversion Hx |].
        cbn [List.combine length seq] in *.
        inversion Hx as [? ? (rhs & msg & Er & Es) | ? ? Hx']; subst.
        + left. exists c, rhs, msg. cbn [fst snd] in *.
          split; [| split; assumption].
          unfold GaussRadau.load.
          rewrite nth_error_app2, Nat.sub_diag by lia. reflexivity.
        + right. specialize (IH (pre ++ [c]) fs Hx').
          rewrite <- app_assoc, length_app, Nat.add_1_r in IH. exact IH. }
    exact (Hgen [] coefficients fps Hex). }
  exists e.
  destruct (GaussRadau.radau_all ext coefficients
              (List.combine fps (seq 0 (length coefficients))))
    as [t [e' | [refs' h']]]; simpl in Ee; [| discriminate].
  injection Ee as ->. reflexivity.
Qed.
End RadauGenerator.

Lemma radau_illegal_fixed_point_witness :
  GaussRadau.radau_jakobi extQ [Qrecurrence_1 Coin2] 0 0%Q
  = ([CallSolveBanded], inl (LinAlgError "Illegal Radau fixed point: 0.0"))
  /\ exists e,
       result (GaussRadau.quad_gauss_radau extQ 1 (Joint Coin2 [])
                 (Some 0%Q) "F" 100 "") = inl e.
Proof.
  destruct (@radau_illegal_fixed_point Q NumQ extQ) as [Hjakobi Hquad].
  split.
  - apply (Hjakobi [Qrecurrence_1 Coin2] 0 0%Q (Qrecurrence_1 Coin2) [4%Q]
             "singular matrix"%string); reflexivity.
  - apply (Hquad 1%Z (Joint Coin2 []) (Some 0%Q) "F"%string 100%Z ""%string
             [Qrecurrence_1 Coin2]).
    + discriminate.
    + reflexivity.
    + left. exists [4%Q], "singular matrix"%string. split; reflexivity.
Defined.

(** C8.  At the order 0 [quad_gauss_radau] calls no collaborator and
    returns a single node, whose coordinate in every dimension is the
    resolved fixed point of that dimension, with the single weight 1: the
    lower support bounds when no fixed point is given, and the given
    fixed point in every dimension otherwise. *)
Theorem quad_gauss_radau_order_zero :
  forall (F : Type) (NF : Num F) (ext : Externals F) (dist : Dist F)
         (fixed_point : option F) (rule : string) (accuracy : Z)
         (recurrence_algorithm : string),
    GaussRadau.quad_gauss_radau ext 0 dist fixed_point rule accuracy
      recurrence_algorithm
    = ([], inr (map (fun x => [x])
                    (GaussRadau.resolve_fixed_point dist fixed_point),
                [one])) /\
    length (GaussRadau.resolve_fixed_point dist fixed_point) = len dist /\
    GaussRadau.resolve_fixed_point dist None
    = map (fun m => fst (range m)) (marginals dist) /\
    forall x, mul one x = x ->
              GaussRadau.resolve_fixed_point dist (Some x)
              = repeat x (len dist).
Proof.
  intros F NF ext dist fixed_point rule accuracy algo.
  split; [reflexivity |]. split; [| split; [reflexivity |]].
  - unfold GaussRadau.resolve_fixed_point, len.
    destruct fixed_point; rewrite length_map; [apply repeat_length |].
    reflexivity.
  - intros x Hx. unfold GaussRadau.resolve_fixed_point.
    induction (len dist) as [| n IH]; simpl; [reflexivity |].
    rewrite Hx, IH. reflexivity.
Qed.

Lemma quad_gauss_radau_order_zero_witness :
  GaussRadau.quad_gauss_radau extQ 0 (Joint Coin2 [Uniform01]) (Some 3%Q)
    "F" 100 ""
  = ([], inr ([[3%Q]; [3%Q]], [1%Q])).
Proof.
  destruct (quad_gauss_radau_order_zero Q NumQ extQ (Joint Coin2 [Uniform01])
              (Some 3%Q) "F"%string 100%Z ""%string) as (E & _ & _ & Hsome).
  rewrite E, (Hsome 3%Q eq_refl). reflexivity.
Defined.

(** ** Tensor-product rules *)

Lemma Forall2_seq_nth {A B : Type} (P : nat -> B -> Prop)
    (Q : A -> B -> Prop) (d0 : A) (l : list A) :
  forall (s : nat) (out : list B),
    Forall2 P (seq s (length l)) out ->
    (forall i r, i < length l -> P (s + i) r -> Q (nth i l d0) r) ->
    Forall2 Q l out.
Proof.
  induction l as [| a l IH]; intros s out Hall Hpq.
  - inversion Hall. constructor.
  - cbn [length seq] in Hall.
    inversion Hall as [| ? r ? out' Hr Hout]; subst.
    constructor.
    + apply (Hpq 0 r); [simpl; lia | rewrite Nat.add_0_r; exact Hr].
    + apply (IH (S s) out' Hout). intros i r' Hi Hp.
      apply (Hpq (S i) r'); [simpl; lia |].
      rewrite Nat.add_succ_r. exact Hp.
Qed.

Lemma Forall2_nth_error_l {A B : Type} (P : A -> B -> Prop)
    (l : list A) (l' : list B) :
  Forall2 P l l' ->
  forall i x, nth_error l i = Some x ->
              exists y, nth_error l' i = Some y /\ P x y.
Proof.
  induction 1 as [| x y l l' Hxy _ IH]; intros i z E.
  - destruct i; discriminate.
  - destruct i as [| i]; simpl in *.
    + injection E as <-. exists y. split; [reflexivity | exact Hxy].
    + exact (IH i z E).
Qed.

(** A one-dimensional Leja rule is one row of nodes, those of the node
    builder, with the weights the weight solver gives them. *)
Lemma quad_leja_1d_inv {F : Type} `{Num F} (ext : Externals F)
    (o : PyVal) (d : Marginal F) (r : list (list F) * list F) :
  result (Leja.quad_leja_1d ext o d) = inr r ->
  exists nodes wd,
    r = ([nodes], wd) /\
    result (Leja.leja_nodes ext o d) = inr nodes /\
    result (Leja.create_weights ext nodes d) = inr wd.
Proof.
  intros E. unfold Leja.quad_leja_1d in E.
  apply bind_inr_inv in E. destruct E as (nodes & En & E).
  apply bind_inr_inv in E. destruct E as (wd & Ew & E).
  rewrite result_ret in E. injection E as <-.
  exists nodes, wd. repeat split; assumption.
Qed.

(** C9.  A rule that [quad_leja] returns for more than one dimension is
    the tensor product of the rules that [quad_leja] returns on the
    marginals, each at the order of its dimension; a rule that
    [quad_gauss_radau] returns at an order other than 0 is the tensor
    product of the one-dimensional rules that the modified recurrence
    coefficients give.  In both, the number of weights is the product of
    the numbers of the one-dimensional weights, the weight at the row of a
    multi-index is 1 multiplied, dimension after dimension, by the
    one-dimensional weights the multi-index selects, every row of
    abscissas has as many entries as the product of the numbers of the
    one-dimensional nodes, and the node at the row of a multi-index has
    the selected one-dimensional nodes as coordinates. *)
Theorem tensor_product_rules :
  forall (F : Type) (NF : Num F) (ext : Externals F),
    (forall (order : PyVal) (dist : Dist F) (A : list (list F)) (w : list F),
       1 < len dist ->
       result (Leja.quad_leja ext order dist) = inr (A, w) ->
       exists rules : list (list F * list F),
         length rules = len dist /\
         (forall i d,
            nth_error (marginals dist) i = Some d ->
            exists o nodes wd,
              (if isinstance_int order then inr order else getitem order i)
              = inr o /\
              nth_error rules i = Some (nodes, wd) /\
              result (Leja.leja_nodes ext o d) = inr nodes /\
              result (Leja.create_weights ext nodes d) = inr wd /\
              result (Leja.quad_leja ext o (Joint d [])) = inr ([nodes], wd)) /\
         length w = npoints (map snd rules) /\
         (forall idx,
            Forall2 (fun i wd => i < length wd) idx (map snd rules) ->
            nth (flat_index (map snd rules) idx) w zero
            = fold_left mul (select (map snd rules) idx) one) /\
         length A = len dist /\
         Forall (fun row => length row = npoints (map fst rules)) A /\
         (forall idx j,
            Forall2 (fun i x => i < length x) idx (map fst rules) ->
            j < len dist ->
            nth (flat_index (map fst rules) idx) (nth j A []) zero
            = nth j (select (map fst rules) idx) zero))
    /\
    (forall (order : Z) (dist : Dist F) (fixed_point : option F)
            (rule : string) (accuracy : Z) (recurrence_algorithm : string)
            (A : list (list F)) (w : list F),
       order <> 0%Z ->
       result (GaussRadau.quad_gauss_radau ext order dist fixed_point rule
                 accuracy recurrence_algorithm) = inr (A, w) ->
       exists (given coefficients : list (Coeffs F)) (refs : list nat)
              (h : GaussRadau.Heap) (xs ws : list (list F)),
         construct_recurrence_coefficients ext (2 * order - 1) dist rule
           accuracy recurrence_algorithm = inr given /\
         result (GaussRadau.radau_all ext given
                   (List.combine
                      (GaussRadau.resolve_fixed_point dist fixed_point)
                      (seq 0 (length given)))) = inr (refs, h) /\
         GaussRadau.load_all h refs = inr coefficients /\
         coefficients_to_quadrature ext coefficients = inr (xs, ws) /\
         length w = npoints ws /\
         (forall idx,
            Forall2 (fun i wd => i < length wd) idx ws ->
            nth (flat_index ws idx) w zero
            = fold_left mul (select ws idx) one) /\
         (length xs = len dist ->
          length A = len dist /\
          Forall (fun row => length row = npoints xs) A /\
          forall idx j,
            Forall2 (fun i x => i < length x) idx xs ->
            j < len dist ->
            nth (flat_index xs idx) (nth j A []) zero
            = nth j (select xs idx) zero)).
Proof.
  intros F NF ext. split.
  - intros order dist A w Hlen E. unfold Leja.quad_leja in E.
    apply Nat.ltb_lt in Hlen. rewrite Hlen in E.
    apply bind_inr_inv in E. destruct E as (deps & Edeps & E).
    destruct deps; [discriminate |].
    apply bind_inr_inv in E. destruct E as (out & Eout & E).
    rewrite result_ret in E. injection E as <- <-.
    assert (Hout : length out = len dist /\
                   forall i d,
                     nth_error (marginals dist) i = Some d ->
                     exists o r,
                       (if isinstance_int order then inr order
                        else getitem order i) = inr o /\
                       nth_error out i = Some r /\
                       result (Leja.quad_leja_1d ext o d) = inr r).
    { destruct (isinstance_int order).
      - apply mapM_result in Eout. split.
        + symmetry. exact (Forall2_length Eout).
        + intros i d Ed.
          destruct (Forall2_nth_error_l _ _ _ Eout i d Ed) as (r & Er & Hr).
          exists order, r. repeat split; assumption.
      - apply mapM_result in Eout. split.
        + rewrite <- (Forall2_length Eout). apply length_seq.
        + intros i d Ed.
          assert (Hi : i < len dist).
          { apply nth_error_Some. unfold len in *. rewrite Ed. discriminate. }
          assert (Ei : nth_error (seq 0 (len dist)) i = Some i).
          { rewrite nth_error_nth' with (d := 0) by (rewrite length_seq; exact Hi).
            rewrite seq_nth by exact Hi. reflexivity. }
          destruct (Forall2_nth_error_l _ _ _ Eout i i Ei) as (r & Er & Hr).
          cbv beta in Hr.
          apply bind_inr_inv in Hr. destruct Hr as (o & Eo & Hr).
          rewrite (nth_error_nth _ _ _ Ed) in Hr.
          exists o, r. repeat split; assumption. }
    destruct Hout as [Hn Hout].
    exists (map (fun r => (Leja.first_row r, snd r)) out).
    assert (Efst : map fst (map (fun r => (Leja.first_row r, snd r)) out)
                   = map Leja.first_row out)
      by (rewrite map_map; reflexivity).
    assert (Esnd : map snd (map (fun r : list (list F) * list F =>
                                   (Leja.first_row r, snd r)) out)
                   = map snd out)
      by (rewrite map_map; reflexivity).
    rewrite Efst, Esnd.
    split; [rewrite length_map; exact Hn |].
    split.
    { intros i d Ed. destruct (Hout i d Ed) as (o & r & Eo & Er & Hr).
      destruct (quad_leja_1d_inv ext o d r Hr) as (nodes & wd & -> & En & Ew).
      exists o, nodes, wd.
      split; [exact Eo |].
      split; [rewrite nth_error_map, Er; reflexivity |].
      split; [exact En |]. split; [exact Ew |].
      exact Hr. }
    destruct (tensor_weights_spec (map snd out)) as [Hw1 Hw2].
    destruct (tensor_abscissas_spec (len dist) (map Leja.first_row out))
      as (HD & Hrows & Hx).
    repeat split; assumption.
  - intros order dist fixed_point rule accuracy algo A w Horder E.
    unfold GaussRadau.quad_gauss_radau in E.
    apply Z.eqb_neq in Horder. rewrite Horder in E.
    apply bind_inr_inv in E. destruct E as (given & Egiven & E).
    rewrite alloc_all_spec in E.
    apply bind_inr_inv in E. destruct E as ([refs h] & Eall & E).
    apply bind_inr_inv in E. destruct E as (coefficients & Eload & E).
    apply bind_inr_inv in E. destruct E as ([xs ws] & Eq & E).
    apply bind_inr_inv in E. destruct E as (A0 & EA & E).
    rewrite result_ret in E. injection E as <- <-.
    exists given, coefficients, refs, h, xs, ws.
    split; [exact Egiven |]. split; [exact Eall |].
    split; [exact Eload |]. split; [exact Eq |].
    destruct (tensor_weights_spec ws) as [Hn Hw].
    split; [exact Hn |]. split; [exact Hw |].
    intros Hxs. rewrite Hxs in EA.
    destruct (tensor_abscissas_spec (len dist) xs) as (HD & Hrows & Hx).
    unfold lift in EA. simpl result in EA.
    rewrite (reshape_uniform (len dist) (npoints xs)) in EA;
      [| unfold len; destruct dist; discriminate | exact HD | exact Hrows].
    injection EA as <-. repeat split; assumption.
Qed.

Lemma tensor_product_rules_witness :
  (exists A w,
     result (Leja.quad_leja extQ (VSeq [VInt 1; VInt 1])
               (Joint Coin2 [Uniform01])) = inr (A, w) /\
     A = [[(-1)%Q; (-1)%Q; 0%Q; 0%Q];
          [(1 # 4)%Q; (1 # 2)%Q; (1 # 4)%Q; (1 # 2)%Q]] /\
     w = [0%Q; 0%Q; 0%Q; 1%Q] /\
     exists rules : list (list Q * list Q),
       length rules = 2 /\
       length w = npoints (map snd rules) /\
       Forall (fun row => length row = npoints (map fst rules)) A) /\
  (exists A w,
     result (GaussRadau.quad_gauss_radau extQ 1 (Joint Coin2 [Uniform01]) None
               "F" 100 "") = inr (A, w) /\
     A = [[(-2)%Q; (-2)%Q; 2%Q; 2%Q];
          [0%Q; (2 # 3)%Q; 0%Q; (2 # 3)%Q]] /\
     w = [(1 # 8)%Q; (3 # 8)%Q; (1 # 8)%Q; (3 # 8)%Q] /\
     exists ws : list (list Q),
       length w = npoints ws /\
       forall idx,
         Forall2 (fun i wd => i < length wd) idx ws ->
         nth (flat_index ws idx) w 0%Q = fold_left mul (select ws idx) 1%Q).
Proof.
  destruct (tensor_product_rules Q NumQ extQ) as [Hleja Hradau].
  split.
  - destruct (Hleja (VSeq [VInt 1; VInt 1]) (Joint Coin2 [Uniform01])
                [[(-1)%Q; (-1)%Q; 0%Q; 0%Q];
                 [(1 # 4)%Q; (1 # 2)%Q; (1 # 4)%Q; (1 # 2)%Q]]
                [0%Q; 0%Q; 0%Q; 1%Q])
      as (rules & Hn & _ & Hw & _ & _ & Hrows & _).
    + unfold len. simpl. lia.
    + reflexivity.
    + eexists. eexists. split; [reflexivity |].
      split; [reflexivity |]. split; [reflexivity |].
      exists rules. repeat split; assumption.
  - destruct (Hradau 1%Z (Joint Coin2 [Uniform01]) None "F"%string 100%Z
                ""%string
                [[(-2)%Q; (-2)%Q; 2%Q; 2%Q];
                 [0%Q; (2 # 3)%Q; 0%Q; (2 # 3)%Q]]
                [(1 # 8)%Q; (3 # 8)%Q; (1 # 8)%Q; (3 # 8)%Q])
      as (given & cs & refs & h & xs & ws & _ & _ & _ & _ & Hn & Hw & _).
    + discriminate.
    + reflexivity.
    + eexists. eexists. split; [reflexivity |].
      split; [reflexivity |]. split; [reflexivity |].
      exists ws. split; assumption.
Defined.

(** * Further properties of the two generators *)

(** ** Traces *)

Lemma trace_ret {A : Type} (a : A) : trace (ret a) = [].
Proof. reflexivity. Qed.

Lemma mapM_call_trace {A B : Type} (ev : Event) (g : A -> Exc + B)
    (l : list A) (bs : list B) :
  result (mapM (fun a => call ev (g a)) l) = inr bs ->
  trace (mapM (fun a => call ev (g a)) l) = repeat ev (length l).
Proof.
  revert bs. induction l as [| a l IH]; intros bs E; [reflexivity |].
  cbn [mapM] in *. rewrite result_bind in E. rewrite trace_bind.
  unfold call at 1 in E. unfold call at 1 2 3. cbn [result trace fst snd] in *.
  destruct (g a) as [e | b]; [discriminate |].
  rewrite result_bind in E. rewrite trace_bind.
  destruct (result (mapM (fun a0 => call ev (g a0)) l)) as [e | bs'] eqn:El;
    [discriminate |].
  rewrite (IH bs' eq_refl), trace_ret, app_nil_r. reflexivity.
Qed.

Lemma events_in_bind {A B : Type} (P : Event -> Prop) (m : M A)
    (f : A -> M B) :
  events_in P m -> (forall a, events_in P (f a)) -> events_in P (bind m f).
Proof.
  unfold events_in. intros Hm Hf. rewrite trace_bind.
  destruct (result m) as [e | a]; [exact Hm |].
  apply Forall_app. split; [exact Hm | apply Hf].
Qed.

Lemma events_in_call {A : Type} (P : Event -> Prop) (ev : Event)
    (r : Exc + A) :
  P ev -> events_in P (call ev r).
Proof. intros Hev. unfold events_in, call. simpl. constructor; auto. Qed.

Lemma events_in_silent {A : Type} (P : Event -> Prop) (r : Exc + A) :
  events_in P (lift r).
Proof. constructor. Qed.

Lemma events_in_try {A : Type} (P : Event -> Prop) (m : M A)
    (handles : Exc -> bool) (h : Exc -> M A) :
  events_in P m -> (forall e, events_in P (h e)) ->
  events_in P (try_except m handles h).
Proof.
  unfold events_in, try_except. intros Hm Hh.
  destruct m as [t [e | a]]; [| exact Hm].
  destruct (handles e); [| exact Hm].
  specialize (Hh e). destruct (h e) as [t' r]. simpl in *.
  apply Forall_app. split; assumption.
Qed.

Lemma events_in_mapM {A B : Type} (P : Event -> Prop) (f : A -> M B)
    (l : list A) :
  (forall a, events_in P (f a)) -> events_in P (mapM f l).
Proof.
  intros Hf. induction l as [| a l IH]; [constructor |].
  cbn [mapM]. apply events_in_bind; [apply Hf |]. intros b.
  apply events_in_bind; [exact IH |]. intros bs. constructor.
Qed.

(** ** The Leja node builder, continued *)

Lemma StronglySorted_app_inv {A : Type} (R : A -> A -> Prop) (u v : list A) :
  StronglySorted R (u ++ v) ->
  StronglySorted R u /\ StronglySorted R v /\
  forall x y, In x u -> In y v -> R x y.
Proof.
  induction u as [| a u IH]; simpl; intros Hs.
  - split; [constructor |]. split; [exact Hs |]. intros x y [].
  - inversion Hs as [| ? ? Hs' Hall]; subst.
    destruct (IH Hs') as (Hu & Hv & Huv).
    rewrite Forall_app in Hall. destruct Hall as [Hau Hav].
    split; [constructor; assumption |]. split; [exact Hv |].
    intros x y [<- | Hx] Hy.
    + rewrite Forall_forall in Hav. apply Hav, Hy.
    + apply Huv; assumption.
Qed.

Lemma StronglySorted_NoDup {A : Type} (R : A -> A -> Prop) (l : list A) :
  (forall x, ~ R x x) -> StronglySorted R l -> NoDup l.
Proof.
  intros Hirr. induction 1 as [| a l _ IH Hall]; constructor; [| exact IH].
  intros Hin. rewrite Forall_forall in Hall. exact (Hirr a (Hall a Hin)).
Qed.

Section LejaNodesMore.
Context {F : Type} `{Num F}.
Variable ext : Externals F.
Variable R : F -> F -> Prop.
Hypothesis fminbound_within :
  forall f a b, R a b ->
    exists x v, fminbound ext f a b = inr (x, v) /\ R a x /\ R x b.

Lemma leja_step_trace (d : Marginal F) (l : list F) :
  Sorted R l -> 2 <= length l ->
  trace (Leja.leja_step ext d l) = repeat CallFminbound (length l - 1).
Proof.
  intros Hs Hlen.
  destruct (leja_calls ext R fminbound_within (Leja.objective d l) l Hs)
    as (res & E & Hres).
  assert (Hl : length (adjacent l) = length l - 1).
  { unfold adjacent. rewrite length_combine.
    destruct l as [| c l']; [simpl in Hlen; lia |]. cbn [tl length]. lia. }
  unfold Leja.leja_step. rewrite trace_bind, E.
  assert (Et : trace (mapM (fun '(a, b) =>
                              call CallFminbound
                                (fminbound ext (Leja.objective d l) a b))
                           (adjacent l))
               = repeat CallFminbound (length (adjacent l))).
  { rewrite (mapM_ext_in _
               (fun p => call CallFminbound
                           (fminbound ext (Leja.objective d l)
                              (fst p) (snd p))))
      by (intros [a b] _; reflexivity).
    apply (mapM_call_trace CallFminbound
             (fun p => fminbound ext (Leja.objective d l) (fst p) (snd p))
             (adjacent l) res).
    rewrite <- E. f_equal. apply mapM_ext_in. intros [a b] _. reflexivity. }
  rewrite Et, Hl.
  destruct res as [| r0 res'].
  - apply Forall2_length in Hres. rewrite Hl in Hres. simpl in Hres. lia.
  - cbv beta iota zeta. rewrite trace_ret, app_nil_r. reflexivity.
Qed.

Lemma leja_loop_trace (d : Marginal F) (lo hi : F) (n : nat) :
  forall mid,
    Sorted R (lo :: mid ++ [hi]) ->
    exists c,
      trace (Leja.leja_loop ext n d (lo :: mid ++ [hi]))
      = repeat CallFminbound c /\
      2 * c = n * (2 * length mid + n + 1).
Proof.
  induction n as [| n IH]; intros mid Hs.
  - exists 0. split; reflexivity.
  - destruct (leja_step_frame ext R fminbound_within d lo hi mid Hs)
      as (p & q & x & -> & E & Hs').
    replace ((lo :: p) ++ x :: q ++ [hi])
      with (lo :: (p ++ x :: q) ++ [hi]) in Hs'
      by (simpl; rewrite <- app_assoc; reflexivity).
    destruct (IH _ Hs') as (c & Ec & Hc).
    exists (length (p ++ q) + 1 + c). split.
    + cbn [Leja.leja_loop]. rewrite trace_bind, E, Ec.
      rewrite (leja_step_trace d _ Hs)
        by (simpl; rewrite length_app; simpl; lia).
      rewrite <- repeat_app. f_equal.
      simpl. rewrite !length_app. simpl. lia.
    + rewrite !length_app in *. cbn [length] in *. nia.
Qed.
End LejaNodesMore.

(** X1.  With a minimizer that answers inside the interval it is given,
    the node builder of [quad_leja] calls no collaborator but the
    minimizer, once per sub-interval of every pass: k (k + 3) / 2 calls
    for the order k. *)
Theorem leja_nodes_minimizer_calls :
  forall (F : Type) (NF : Num F) (ext : Externals F) (R : F -> F -> Prop),
    (forall f a b, R a b ->
       exists x v, fminbound ext f a b = inr (x, v) /\ R a x /\ R x b) ->
    forall (order : PyVal) (k : Z) (d : Marginal F),
      py_int order = inr k ->
      R (fst (range d)) (mom d 1) ->
      R (mom d 1) (snd (range d)) ->
      exists c,
        trace (Leja.leja_nodes ext order d) = repeat CallFminbound c /\
        2 * c = Z.to_nat k * (Z.to_nat k + 3).
Proof.
  intros F NF ext R Hfmin order k d Ek Hlo Hhi.
  assert (Hs : Sorted R (fst (range d) :: [mom d 1] ++ [snd (range d)])).
  { simpl. repeat constructor; assumption. }
  destruct (leja_loop_trace ext R Hfmin d _ _ (Z.to_nat k) _ Hs)
    as (c & Ec & Hc).
  exists c. split; [| simpl in Hc; lia].
  unfold Leja.leja_nodes. destruct (range d) as [lower upper].
  cbn [fst snd app] in Ec. rewrite Ek. rewrite bind_ret_l.
  rewrite trace_bind, Ec.
  destruct (result (Leja.leja_loop ext (Z.to_nat k) d
                      [lower; mom d 1; upper]));
    [reflexivity | rewrite trace_ret, app_nil_r; reflexivity].
Qed.

Lemma leja_nodes_minimizer_calls_witness :
  trace (Leja.leja_nodes extQ (VInt 3) Uniform01) = repeat CallFminbound 9.
Proof.
  destruct (leja_nodes_minimizer_calls Q NumQ extQ Qlt Qfminbound_within
              (VInt 3) 3%Z Uniform01 eq_refl) as (c & Ec & Hc).
  - reflexivity.
  - reflexivity.
  - rewrite Ec. f_equal. simpl in Hc. lia.
Defined.

(** X2.  For a transitive order, anchors in order and a minimizer that
    answers inside the interval it is given, the nodes [quad_leja] builds
    on one dimension are ascending and lie between the two support bounds;
    when the order is strict no node occurs twice. *)
Theorem leja_nodes_ascending :
  forall (F : Type) (NF : Num F) (ext : Externals F) (R : F -> F -> Prop),
    (forall x y z, R x y -> R y z -> R x z) ->
    (forall f a b, R a b ->
       exists x v, fminbound ext f a b = inr (x, v) /\ R a x /\ R x b) ->
    forall (order : PyVal) (k : Z) (d : Marginal F),
      py_int order = inr k ->
      R (fst (range d)) (mom d 1) ->
      R (mom d 1) (snd (range d)) ->
      exists nodes,
        result (Leja.leja_nodes ext order d) = inr nodes /\
        StronglySorted R nodes /\
        Forall (fun x => R (fst (range d)) x /\ R x (snd (range d))) nodes /\
        ((forall x, ~ R x x) -> NoDup nodes).
Proof.
  intros F NF ext R Htr Hfmin order k d Ek Hlo Hhi.
  assert (Hs : Sorted R (fst (range d) :: [mom d 1] ++ [snd (range d)])).
  { simpl. repeat constructor; assumption. }
  destruct (leja_loop_frame ext R Hfmin d _ _ (Z.to_nat k) _ Hs)
    as (nodes & E & Hs' & _ & _).
  exists nodes. simpl app in E at 1.
  split.
  { rewrite (leja_nodes_result ext order k d _ Ek E).
    rewrite interior_frame. reflexivity. }
  apply Sorted_StronglySorted in Hs'; [| exact Htr].
  inversion Hs' as [| ? ? Hss Hall]; subst.
  destruct (StronglySorted_app_inv R nodes [snd (range d)] Hss)
    as (Hn & _ & Hup).
  split; [exact Hn |]. split.
  - apply Forall_forall. intros x Hx. split.
    + rewrite Forall_forall in Hall. apply Hall, in_app_iff. left. exact Hx.
    + apply Hup; [exact Hx | left; reflexivity].
  - intros Hirr. exact (StronglySorted_NoDup R nodes Hirr Hn).
Qed.

Lemma leja_nodes_ascending_witness :
  exists nodes,
    result (Leja.leja_nodes extQ (VInt 3) Uniform01) = inr nodes /\
    StronglySorted Qlt nodes /\ NoDup nodes.
Proof.
  destruct (leja_nodes_ascending Q NumQ extQ Qlt Qlt_trans Qfminbound_within
              (VInt 3) 3%Z Uniform01 eq_refl)
    as (nodes & E & Hs & _ & Hnd).
  - reflexivity.
  - reflexivity.
  - exists nodes. repeat split; [exact E | exact Hs | apply Hnd, Qlt_irrefl].
Defined.

Lemma mapM_fails {A B : Type} (f : A -> M B) (l : list A) :
  Exists (fun a => exists e, result (f a) = inl e) l ->
  exists e, result (mapM f l) = inl e.
Proof.
  induction l as [| a l IH]; intros Hex; [inversion Hex |].
  cbn [mapM]. rewrite result_bind.
  destruct (result (f a)) as [e | b] eqn:Ea; [exists e; reflexivity |].
  inversion Hex as [? ? [e Ee] | ? ? Hex']; subst; [congruence |].
  destruct (IH Hex') as [e Ee]. exists e.
  rewrite result_bind, Ee. reflexivity.
Qed.

(** X3.  On one dimension [quad_leja] reads the order through [int(order)]
    alone: an integer scalar of any kind gives the rule of the Python int
    it converts to, every order below 0 gives the rule of the order 0, and
    a list, which [int] refuses, raises TypeError before any collaborator
    is called. *)
Theorem quad_leja_one_dimension_order :
  forall (F : Type) (NF : Num F) (ext : Externals F) (d : Marginal F),
    (forall order k,
       py_int order = inr k ->
       Leja.quad_leja ext order (Joint d [])
       = Leja.quad_leja ext (VInt (Z.max 0 k)) (Joint d [])) /\
    (forall items,
       Leja.quad_leja ext (VSeq items) (Joint d []) = ([], inl TypeError)).
Proof.
  intros F NF ext d. split.
  - intros order k Ek. unfold Leja.quad_leja.
    cbn [len marginals length Nat.ltb Nat.leb first_marginal].
    unfold Leja.quad_leja_1d. f_equal.
    unfold Leja.leja_nodes. destruct (range d) as [lower upper].
    rewrite Ek. cbn [py_int]. rewrite !bind_ret_l.
    replace (Z.to_nat (Z.max 0 k)) with (Z.to_nat k) by lia. reflexivity.
  - intros items. unfold Leja.quad_leja, Leja.quad_leja_1d, Leja.leja_nodes.
    cbn [len marginals length Nat.ltb Nat.leb first_marginal].
    destruct (range d) as [lower upper]. reflexivity.
Qed.

Lemma quad_leja_one_dimension_order_witness :
  Leja.quad_leja extQ (VNpInt (-2)) (Joint Uniform01 [])
  = Leja.quad_leja extQ (VInt 0) (Joint Uniform01 []).
Proof.
  destruct (quad_leja_one_dimension_order Q NumQ extQ Uniform01) as [Hint _].
  exact (Hint (VNpInt (-2)) (-2)%Z eq_refl).
Defined.

(** X4.  On more than one dimension without dependencies, an order given
    as a sequence with fewer items than the distribution has dimensions
    never yields a rule: the call ends in an exception, whatever the
    collaborators answer. *)
Theorem quad_leja_short_order_sequence :
  forall (F : Type) (NF : Num F) (ext : Externals F) (dist : Dist F)
         (items : list PyVal),
    1 < len dist ->
    get_dependencies ext (marginals dist) = false ->
    length items < len dist ->
    exists e, result (Leja.quad_leja ext (VSeq items) dist) = inl e.
Proof.
  intros F NF ext dist items Hlen Hdep Hitems.
  unfold Leja.quad_leja. apply Nat.ltb_lt in Hlen. rewrite Hlen, Hdep.
  cbn [isinstance_int]. rewrite result_bind. cbn [call result snd].
  rewrite result_bind.
  destruct (mapM_fails
              (fun i => o <- lift (getitem (VSeq items) i) ;;
                        Leja.quad_leja_1d ext o
                          (nth i (marginals dist) (first_marginal dist)))
              (seq 0 (len dist))) as [e Ee].
  - apply Exists_exists. exists (length items). split.
    + apply in_seq. lia.
    + exists IndexError. rewrite result_bind. cbn [getitem].
      assert (Hn : nth_error items (length items) = None)
        by (apply nth_error_None; lia).
      rewrite Hn. reflexivity.
  - exists e. rewrite Ee. reflexivity.
Qed.

Lemma quad_leja_short_order_sequence_witness :
  exists e,
    result (Leja.quad_leja extQ (VSeq [VInt 1])
              (Joint Uniform01 [Uniform01])) = inl e.
Proof.
  apply (quad_leja_short_order_sequence Q NumQ extQ
           (Joint Uniform01 [Uniform01]) [VInt 1]).
  - unfold len. simpl. lia.
  - reflexivity.
  - unfold len. simpl. lia.
Defined.

(** X5.  When the minimizer fails on the first sub-interval, between the
    lower support bound and the first raw moment, [quad_leja] on one
    dimension at an order above 0 ends with that failure after this one
    call: no other sub-interval is searched and no weight is solved. *)
Theorem quad_leja_minimizer_failure :
  forall (F : Type) (NF : Num F) (ext : Externals F) (order : PyVal)
         (k : Z) (d : Marginal F) (e : Exc),
    py_int order = inr k ->
    (0 < k)%Z ->
    fminbound ext
      (Leja.objective d [fst (range d); mom d 1; snd (range d)])
      (fst (range d)) (mom d 1) = inl e ->
    Leja.quad_leja ext order (Joint d []) = ([CallFminbound], inl e).
Proof.
  intros F NF ext order k d e Ek Hk Hfail.
  unfold Leja.quad_leja, Leja.quad_leja_1d, Leja.leja_nodes.
  cbn [len marginals length Nat.ltb Nat.leb first_marginal].
  destruct (range d) as [lower upper]. cbn [fst snd] in Hfail.
  rewrite Ek, bind_ret_l.
  destruct (Z.to_nat k) as [| n] eqn:En; [lia |].
  cbn [Leja.leja_loop]. unfold Leja.leja_step.
  cbn [adjacent List.combine tl mapM]. rewrite Hfail. reflexivity.
Qed.

Lemma quad_leja_minimizer_failure_witness :
  Leja.quad_leja extQ (VInt 2)
    (Joint {| range := (1%Q, 2%Q);
              mom := fun _ => 0%Q;
              pdf := fun _ => 1%Q |} [])
  = ([CallFminbound], inl ValueError).
Proof.
  apply (quad_leja_minimizer_failure Q NumQ extQ (VInt 2) 2%Z
           {| range := (1%Q, 2%Q); mom := fun _ => 0%Q; pdf := fun _ => 1%Q |}
           ValueError).
  - reflexivity.
  - lia.
  - reflexivity.
Defined.

(** ** The choice of the sub-interval *)

Section Argmin.
Context {F : Type} `{Num F}.
Hypothesis ltb_irrefl : forall x, ltb x x = false.
Hypothesis ltb_asym : forall x y, ltb x y = true -> ltb y x = false.
Hypothesis ltb_le_trans :
  forall x y z, ltb x y = true -> ltb z y = false -> ltb x z = true.

Lemma argmin_from_spec (d : F) (vs : list F) :
  forall (pre : list F) (bi : nat),
    bi < length pre ->
    (forall j, j < length pre ->
               ltb (nth j pre d) (nth bi pre d) = false) ->
    (forall j, j < bi -> ltb (nth bi pre d) (nth j pre d) = true) ->
    let r := argmin_from bi (nth bi pre d) (length pre) vs in
    r < length (pre ++ vs) /\
    (forall j, j < length (pre ++ vs) ->
               ltb (nth j (pre ++ vs) d) (nth r (pre ++ vs) d) = false) /\
    (forall j, j < r ->
               ltb (nth r (pre ++ vs) d) (nth j (pre ++ vs) d) = true).
Proof.
  induction vs as [| v vs IH]; intros pre bi Hbi Hleast Hfirst.
  - cbn [argmin_from]. rewrite app_nil_r. repeat split; assumption.
  - cbn [argmin_from].
    replace (pre ++ v :: vs) with ((pre ++ [v]) ++ vs)
      by (rewrite <- app_assoc; reflexivity).
    assert (Hlen : length (pre ++ [v]) = S (length pre))
      by (rewrite length_app; simpl; lia).
    destruct (ltb v (nth bi pre d)) eqn:Ev.
    + assert (Ei : nth (length pre) (pre ++ [v]) d = v) by apply nth_middle.
      specialize (IH (pre ++ [v]) (length pre)).
      rewrite Ei, Hlen in IH. apply IH.
      * lia.
      * intros j Hj.
        destruct (Nat.eq_dec j (length pre)) as [-> | Hne].
        -- rewrite Ei. apply ltb_irrefl.
        -- rewrite app_nth1 by lia. apply ltb_asym.
           apply (ltb_le_trans _ _ _ Ev). apply Hleast. lia.
      * intros j Hj. rewrite app_nth1 by lia.
        apply (ltb_le_trans _ _ _ Ev). apply Hleast. lia.
    + assert (Ei : nth bi (pre ++ [v]) d = nth bi pre d)
        by (apply app_nth1; exact Hbi).
      specialize (IH (pre ++ [v]) bi).
      rewrite Ei, Hlen in IH. apply IH.
      * lia.
      * intros j Hj.
        destruct (Nat.eq_dec j (length pre)) as [-> | Hne].
        -- rewrite nth_middle. exact Ev.
        -- rewrite app_nth1 by lia. apply Hleast. lia.
      * intros j Hj. rewrite app_nth1 by lia. apply Hfirst, Hj.
Qed.

(** X6.  For a comparison that is a strict total order on the values at
    hand, the index [quad_leja] takes from [numpy.argmin] is the first at
    which the least value stands: no value is below the one it points to,
    and the one it points to is below every value before it.  Of several
    sub-intervals with the same least objective value the first one gets
    the new node. *)
Theorem argmin_first_least :
  forall (d : F) (vals : list F),
    vals <> [] ->
    argmin vals < length vals /\
    (forall j, j < length vals ->
               ltb (nth j vals d) (nth (argmin vals) vals d) = false) /\
    (forall j, j < argmin vals ->
               ltb (nth (argmin vals) vals d) (nth j vals d) = true).
Proof.
  intros d [| v vs] Hne; [congruence |].
  change (argmin (v :: vs))
    with (argmin_from 0 (nth 0 [v] d) (length [v]) vs).
  change (v :: vs) with ([v] ++ vs).
  apply argmin_from_spec.
  - simpl. lia.
  - intros j Hj. simpl in Hj. replace j with 0 by lia. apply ltb_irrefl.
  - intros j Hj. lia.
Qed.
End Argmin.

Lemma argmin_first_least_witness :
  argmin [3; 1; 2; 1]%Z = 1 /\
  forall j, j < 4 -> Z.ltb (nth j [3; 1; 2; 1]%Z 0%Z) 1%Z = false.
Proof.
  destruct (@argmin_first_least Z NumZ Z.ltb_irrefl) with
    (d := 0%Z) (vals := [3; 1; 2; 1]%Z) as (_ & Hleast & _).
  - intros x y Hxy. apply Z.ltb_lt in Hxy. apply Z.ltb_ge. lia.
  - intros x y z Hxy Hzy. apply Z.ltb_lt in Hxy. apply Z.ltb_ge in Hzy.
    apply Z.ltb_lt. lia.
  - discriminate.
  - split; [reflexivity | exact Hleast].
Defined.

(** ** The objective *)

Section Objective.
Context {F : Type} `{Num F}.
Hypothesis Rth : ring_theory zero one add mul sub neg (@eq F).
Add Ring Fring_objective : Rth.

Lemma fold_left_mul_zero (l : list F) : fold_left mul l zero = zero.
Proof.
  induction l as [| x l IH]; [reflexivity |]. simpl.
  replace (mul zero x) with zero by ring. exact IH.
Qed.

Lemma fold_left_mul_with_zero (l : list F) :
  In zero l -> forall a, fold_left mul l a = zero.
Proof.
  induction l as [| x l IH]; intros Hin a; [inversion Hin |].
  simpl. destruct Hin as [-> | Hin].
  - replace (mul a zero) with zero by ring. apply fold_left_mul_zero.
  - apply IH, Hin.
Qed.

(** X7.  In exact arithmetic the objective the minimizer is given
    vanishes at every interior node of the current list, whatever the
    density: the product of distances has the factor |x - x|. *)
Theorem objective_vanishes_at_nodes :
  forall (d : Marginal F) (abscissas : list F) (x : F),
    fabs zero = zero ->
    In x (interior abscissas) ->
    Leja.objective d abscissas x = zero.
Proof.
  intros d abscissas x Habs Hin. unfold Leja.objective, prod.
  rewrite fold_left_mul_with_zero; [ring |].
  apply in_map_iff. exists x. split; [| exact Hin].
  replace (sub x x) with zero by ring. exact Habs.
Qed.
End Objective.

Lemma objective_vanishes_at_nodes_witness :
  Leja.objective
    {| range := (0%Z, 8%Z); mom := fun _ => 4%Z; pdf := fun _ => 1%Z |}
    [0; 2; 4; 8]%Z 2%Z = 0%Z.
Proof.
  apply (@objective_vanishes_at_nodes Z NumZ Zth).
  - reflexivity.
  - simpl. left. reflexivity.
Defined.

(** ** The Leja weight solver, continued *)

(** X8.  [create_weights] falls back on the discretized Stieltjes
    procedure only when the analytical one raises NotImplementedError,
    and then asks for a rule of 100 n samples and for the degree n - 1,
    n being the number of nodes.  Any other exception of the analytical
    procedure, and any exception of the fallback, ends the call as it is:
    no matrix is inverted. *)
Theorem create_weights_fallback :
  forall (F : Type) (NF : Num F) (ext : Externals F)
         (nodes : list F) (d : Marginal F),
    let n := Z.of_nat (length nodes) in
    (forall e,
       analytical_stieljes ext (n - 1) d = inl e ->
       is_NotImplementedError e = false ->
       Leja.create_weights ext nodes d
       = ([CallAnalyticalStieltjes], inl e)) /\
    (forall e,
       analytical_stieljes ext (n - 1) d = inl NotImplementedError ->
       construct_quadrature ext (100 * n) d = inl e ->
       Leja.create_weights ext nodes d
       = ([CallAnalyticalStieltjes; CallConstructQuadrature], inl e)) /\
    (forall abscissas weights r,
       analytical_stieljes ext (n - 1) d = inl NotImplementedError ->
       construct_quadrature ext (100 * n) d = inr (abscissas, weights) ->
       discretized_stieltjes ext (n - 1) abscissas weights = r ->
       Leja.orthogonal_basis ext nodes d
       = ([CallAnalyticalStieltjes; CallConstructQuadrature;
           CallDiscretizedStieltjes], r)).
Proof.
  intros F NF ext nodes d n. split; [| split].
  - intros e Ea He. unfold Leja.create_weights, Leja.orthogonal_basis.
    fold n. rewrite Ea. unfold call, try_except. rewrite He. reflexivity.
  - intros e Ea Ec. unfold Leja.create_weights, Leja.orthogonal_basis.
    fold n. rewrite Ea, Ec. reflexivity.
  - intros abscissas weights r Ea Ec Ed. unfold Leja.orthogonal_basis.
    fold n. rewrite Ea, Ec. subst r. unfold call, try_except, bind.
    cbn [is_NotImplementedError].
    destruct (discretized_stieltjes ext (n - 1) abscissas weights);
      reflexivity.
Qed.

Lemma create_weights_fallback_witness :
  Leja.create_weights extQ [0%Q; (1 # 2)%Q; 1%Q] Uniform01
  = ([CallAnalyticalStieltjes; CallConstructQuadrature],
     inl NotImplementedError).
Proof.
  destruct (create_weights_fallback Q NumQ extQ [0%Q; (1 # 2)%Q; 1%Q]
              Uniform01) as (_ & Hfall & _).
  apply Hfall; reflexivity.
Defined.

Lemma dot_ones {F : Type} `{Num F} (p0 : F -> F) (w : list F) :
  (forall x, p0 x = one) ->
  Forall (fun x => mul one x = x) w ->
  forall nodes, length w <= length nodes ->
                dot (map p0 nodes) w = vsum w.
Proof.
  intros Hp0 Hw. unfold dot. intros nodes Hlen. f_equal.
  revert nodes Hlen. induction Hw as [| x w Hx _ IH]; intros nodes Hlen.
  - destruct nodes; reflexivity.
  - destruct nodes as [| y nodes]; [simpl in Hlen; lia |].
    cbn [map List.combine fst snd]. rewrite Hp0, Hx. f_equal.
    apply IH. simpl in Hlen. lia.
Qed.

(** X9.  The weights of [create_weights] satisfy the moment equations the
    inverse satisfies in its first column: when the inversion answers
    with a matrix W whose first column is sent by the evaluation matrix
    to the first unit vector, the weighted sum of polynomial 0 over the
    nodes is 1 and that of every other polynomial of the basis is 0; in
    particular the weights sum to 1 when polynomial 0 is the constant 1. *)
Theorem create_weights_moments :
  forall (F : Type) (NF : Num F) (ext : Externals F)
         (nodes : list F) (d : Marginal F)
         (poly : list (F -> F)) (W : list (list F)),
    nodes <> [] ->
    result (Leja.orthogonal_basis ext nodes d) = inr poly ->
    inv ext (Leja.evaluate poly nodes) = inr W ->
    length W = length nodes ->
    Forall (fun row => row <> []) W ->
    (forall i p, nth_error poly i = Some p ->
                 dot (map p nodes) (map (fun row => nth 0 row zero) W)
                 = if (i =? 0)%nat then one else zero) ->
    exists w,
      result (Leja.create_weights ext nodes d) = inr w /\
      length w = length nodes /\
      (forall i p, nth_error poly i = Some p ->
                   dot (map p nodes) w
                   = if (i =? 0)%nat then one else zero) /\
      (forall p0, nth_error poly 0 = Some p0 ->
                  (forall x, p0 x = one) ->
                  Forall (fun x => mul one x = x) w ->
                  vsum w = one).
Proof.
  intros F NF ext nodes d poly W Hn Hp HW HlW Hrows Hinv.
  exists (map (fun row => nth 0 row zero) W).
  split; [| split; [| split]].
  - unfold Leja.create_weights. rewrite result_bind, Hp, result_bind.
    unfold call at 1. simpl result at 1. rewrite HW.
    unfold lift. simpl result. apply column0_spec; [| exact Hrows].
    intros ->. destruct nodes; [congruence | discriminate].
  - rewrite length_map. exact HlW.
  - exact Hinv.
  - intros p0 Ep0 Hp0 Hone.
    rewrite <- (dot_ones p0 _ Hp0 Hone nodes)
      by (rewrite length_map; lia).
    apply (Hinv 0 p0 Ep0).
Qed.

Lemma create_weights_moments_witness :
  exists w,
    result (Leja.create_weights extQ [(1 # 4)%Q; (1 # 2)%Q] Uniform01)
    = inr w /\
    vsum w = 1%Q.
Proof.
  destruct (create_weights_moments Q NumQ extQ
              [(1 # 4)%Q; (1 # 2)%Q] Uniform01
              [fun _ => 1%Q; fun x => Qred (x - mom Uniform01 1)%Q]
              [[0%Q; (-4)%Q]; [1%Q; 4%Q]])
    as (w & E & Hlen & _ & Hsum).
  - discriminate.
  - reflexivity.
  - reflexivity.
  - reflexivity.
  - repeat constructor; discriminate.
  - intros i p Ep. destruct i as [| [| i]]; simpl in Ep.
    + injection Ep as <-. reflexivity.
    + injection Ep as <-. reflexivity.
    + destruct i; discriminate.
  - exists w. split; [exact E |].
    apply (Hsum (fun _ => 1%Q) eq_refl (fun _ => eq_refl)).
    assert (Ew : w = [0%Q; 1%Q]).
    { vm_compute in E. injection E as <-. reflexivity. }
    rewrite Ew. repeat constructor.
Defined.

(** ** The collaborators a generator calls *)

Section LejaEvents.
Context {F : Type} `{Num F}.
Variable ext : Externals F.

Lemma leja_loop_events (d : Marginal F) (n : nat) :
  forall l, events_in leja_work (Leja.leja_loop ext n d l).
Proof.
  induction n as [| n IH]; intros l; [constructor |].
  cbn [Leja.leja_loop]. apply events_in_bind; [| exact IH].
  unfold Leja.leja_step. apply events_in_bind.
  - apply events_in_mapM. intros [a b].
    apply events_in_call. exact I.
  - intros [| r0 res]; constructor.
Qed.

Lemma quad_leja_1d_events (order : PyVal) (d : Marginal F) :
  events_in leja_work (Leja.quad_leja_1d ext order d).
Proof.
  unfold Leja.quad_leja_1d. apply events_in_bind.
  - unfold Leja.leja_nodes. destruct (range d) as [lower upper].
    apply events_in_bind; [apply events_in_silent |]. intros n.
    apply events_in_bind; [apply leja_loop_events |]. intros l. constructor.
  - intros nodes. apply events_in_bind; [| intros w; constructor].
    unfold Leja.create_weights. apply events_in_bind.
    + unfold Leja.orthogonal_basis. apply events_in_try.
      * apply events_in_call. exact I.
      * intros _. apply events_in_bind; [apply events_in_call; exact I |].
        intros [xs ws]. apply events_in_call. exact I.
    + intros poly. apply events_in_bind; [apply events_in_call; exact I |].
      intros W. apply events_in_silent.
Qed.

(** X10.  Whatever the collaborators answer, and whether it ends in a
    rule or in an exception, [quad_leja] calls none of the recurrence
    provider, the banded solver and the eigen-solver; on one dimension it
    makes no dependency check, and on more the dependency check is its
    first call and is made once. *)
Theorem quad_leja_collaborators :
  forall (order : PyVal) (dist : Dist F),
    (len dist = 1 ->
     events_in leja_work (Leja.quad_leja ext order dist)) /\
    (1 < len dist ->
     exists t,
       trace (Leja.quad_leja ext order dist) = CallGetDependencies :: t /\
       Forall leja_work t).
Proof.
  intros order dist. unfold Leja.quad_leja. split.
  - intros Hlen. rewrite Hlen. cbn [Nat.ltb Nat.leb].
    apply quad_leja_1d_events.
  - intros Hlen. apply Nat.ltb_lt in Hlen. rewrite Hlen.
    rewrite trace_bind. cbn [call result trace fst snd].
    eexists. split; [reflexivity |].
    destruct (get_dependencies ext (marginals dist)); [constructor |].
    apply (events_in_bind leja_work).
    + destruct (isinstance_int order); apply events_in_mapM.
      * intros d. apply quad_leja_1d_events.
      * intros i. apply events_in_bind; [apply events_in_silent |].
        intros o. apply quad_leja_1d_events.
    + intros out. constructor.
Qed.
End LejaEvents.

Lemma quad_leja_collaborators_witness :
  exists t,
    trace (Leja.quad_leja extQ (VInt 1) (Joint Uniform01 [Uniform01]))
    = CallGetDependencies :: t /\
    Forall leja_work t.
Proof.
  destruct (@quad_leja_collaborators Q NumQ extQ (VInt 1)
              (Joint Uniform01 [Uniform01])) as [_ Hmany].
  apply Hmany. unfold len. simpl. lia.
Defined.

(** ** The Radau modification, continued *)

Section RadauMore.
Context {F : Type} `{Num F}.
Variable ext : Externals F.

Lemma bands_j_snoc (c0 : Coeffs F) (a b fp : F) :
  GaussRadau.bands_j (c0 ++ [(a, b)]) fp =
  [map fsqrt (map snd c0);
   map (fun x => sub x fp) (map fst c0);
   tl (map fsqrt (map snd c0) ++ [fsqrt b])].
Proof.
  unfold GaussRadau.bands_j, GaussRadau.bands_a. cbv zeta. cbn [fst snd].
  rewrite !map_app. cbn [map fst snd]. rewrite !removelast_last. reflexivity.
Qed.

Lemma right_hand_side_snoc (c0 : Coeffs F) (a a' b : F) :
  GaussRadau.right_hand_side (c0 ++ [(a, b)])
  = GaussRadau.right_hand_side (c0 ++ [(a', b)]).
Proof.
  unfold GaussRadau.right_hand_side.
  rewrite !map_app, !length_app. reflexivity.
Qed.

(** A modification that returns has loaded an array of two entries or
    more, got a non-empty answer of the solver, and left the heap it
    found extended by the modified copy. *)
Lemma radau_jakobi_inv (h h1 : GaussRadau.Heap) (p p1 : nat) (fp : F) :
  result (GaussRadau.radau_jakobi ext h p fp) = inr (p1, h1) ->
  exists c0 a b rhs delta0 dl,
    GaussRadau.load h p = inr (c0 ++ [(a, b)]) /\
    c0 <> [] /\
    GaussRadau.right_hand_side (c0 ++ [(a, b)]) = inr rhs /\
    solve_banded ext (GaussRadau.bands_j (c0 ++ [(a, b)]) fp) rhs
    = inr (delta0 ++ [dl]) /\
    GaussRadau.radau_jakobi ext h p fp
    = ([CallSolveBanded],
       inr (length h, h ++ [c0 ++ [(add fp dl, b)]])) /\
    p1 = length h /\
    h1 = h ++ [c0 ++ [(add fp dl, b)]].
Proof.
  intros E.
  destruct (GaussRadau.load h p) as [e | c] eqn:El.
  { unfold GaussRadau.radau_jakobi in E. rewrite El in E. discriminate. }
  destruct (GaussRadau.right_hand_side c) as [e | rhs] eqn:Er.
  { unfold GaussRadau.radau_jakobi in E. rewrite El in E.
    unfold lift at 1 in E. unfold bind at 1 in E. rewrite Er in E.
    discriminate. }
  destruct (solve_banded ext (GaussRadau.bands_j c fp) rhs)
    as [e | delta] eqn:Es.
  { unfold GaussRadau.radau_jakobi in E. rewrite El in E.
    unfold lift at 1 in E. unfold bind at 1 in E. rewrite Er in E.
    unfold lift at 1 in E. unfold bind at 1 in E. rewrite Es in E.
    destruct e; discriminate. }
  destruct (right_hand_side_inv c rhs Er) as (c0 & a & b & -> & Hc0 & Hrhs).
  destruct delta as [| x delta'] using rev_ind.
  { unfold GaussRadau.radau_jakobi in E. rewrite El in E.
    unfold lift at 1 in E. unfold bind at 1 in E. rewrite Er in E.
    unfold lift at 1 in E. unfold bind at 1 in E. rewrite Es in E.
    discriminate. }
  clear IHdelta'.
  pose proof (radau_jakobi_run ext h p fp c0 a b rhs delta' x El Er Es)
    as Erun.
  rewrite Erun in E. cbn [result snd] in E. injection E as <- <-.
  exists c0, a, b, rhs, delta', x. repeat split; assumption.
Qed.

(** X11.  [radau_jakobi] refuses coefficient arrays too short to hold a
    system: on an array without entries it raises ValueError and on an
    array of a single entry IndexError, in both cases before the solver
    is called. *)
Theorem radau_jakobi_short_array :
  forall (h : GaussRadau.Heap) (p : nat) (fixed_point : F),
    (GaussRadau.load h p = inr [] ->
     GaussRadau.radau_jakobi ext h p fixed_point = ([], inl ValueError)) /\
    (forall ab,
       GaussRadau.load h p = inr [ab] ->
       GaussRadau.radau_jakobi ext h p fixed_point = ([], inl IndexError)).
Proof.
  intros h p fp. split.
  - intros El. unfold GaussRadau.radau_jakobi. rewrite El. reflexivity.
  - intros ab El. unfold GaussRadau.radau_jakobi. rewrite El. reflexivity.
Qed.

(** X12.  Of the exceptions of the banded solver [radau_jakobi] rewrites
    the LinAlgError alone: any other exception ends the call as it
    is, and no array is allocated. *)
Theorem radau_jakobi_other_failure :
  forall (h : GaussRadau.Heap) (p : nat) (fixed_point : F)
         (c : Coeffs F) (rhs : list F) (e : Exc),
    GaussRadau.load h p = inr c ->
    GaussRadau.right_hand_side c = inr rhs ->
    solve_banded ext (GaussRadau.bands_j c fixed_point) rhs = inl e ->
    is_LinAlgError e = false ->
    GaussRadau.radau_jakobi ext h p fixed_point
    = ([CallSolveBanded], inl e).
Proof.
  intros h p fp c rhs e El Er Es He. unfold GaussRadau.radau_jakobi.
  rewrite El. unfold lift at 1. unfold bind at 1.
  rewrite Er. unfold lift at 1. unfold bind at 1.
  rewrite Es. unfold call, try_except. rewrite He. reflexivity.
Qed.

(** X13.  [radau_jakobi] does not read the last alpha of its input: on
    two arrays that differ in that entry alone it does the same, down to
    the array it returns.  Hence modifying an array that was modified
    for the same fixed point changes nothing: the second result holds
    the coefficients of the first. *)
Theorem radau_jakobi_idempotent :
  forall (h : GaussRadau.Heap) (p q : nat) (fixed_point : F)
         (c0 : Coeffs F) (a a' b : F),
    GaussRadau.load h p = inr (c0 ++ [(a, b)]) ->
    GaussRadau.load h q = inr (c0 ++ [(a', b)]) ->
    GaussRadau.radau_jakobi ext h p fixed_point
    = GaussRadau.radau_jakobi ext h q fixed_point /\
    forall p1 h1,
      result (GaussRadau.radau_jakobi ext h p fixed_point) = inr (p1, h1) ->
      exists c',
        GaussRadau.load h1 p1 = inr c' /\
        GaussRadau.radau_jakobi ext h1 p1 fixed_point
        = ([CallSolveBanded], inr (length h1, h1 ++ [c'])).
Proof.
  intros h p q fp c0 a a' b Ep Eq.
  assert (Hsame : forall (g : GaussRadau.Heap) (r s : nat) (x y : F),
             GaussRadau.load g r = inr (c0 ++ [(x, b)]) ->
             GaussRadau.load g s = inr (c0 ++ [(y, b)]) ->
             GaussRadau.radau_jakobi ext g r fp
             = GaussRadau.radau_jakobi ext g s fp).
  { intros g r s x y Er Es. unfold GaussRadau.radau_jakobi.
    rewrite Er, Es, !bind_ret_l.
    rewrite (right_hand_side_snoc c0 x y b).
    destruct (GaussRadau.right_hand_side (c0 ++ [(y, b)])) as [e | rhs];
      [reflexivity |].
    rewrite !bind_ret_l, !bands_j_snoc.
    destruct (solve_banded ext _ rhs) as [e | delta].
    { unfold call, try_except, bind, raise.
      destruct (is_LinAlgError e); reflexivity. }
    unfold call, try_except, GaussRadau.alloc, bind, lift, ret.
    cbv beta iota zeta.
    destruct (GaussRadau.last_item delta) as [e | dl]; [reflexivity |].
    rewrite !set_last_alpha_snoc, !update_alloc. reflexivity. }
  split; [exact (Hsame h p q a a' Ep Eq) |].
  intros p1 h1 E.
  destruct (radau_jakobi_inv h h1 p p1 fp E)
    as (c1 & a1 & b1 & rhs & delta0 & dl & El & _ & Er & Es & Erun & -> & ->).
  rewrite Ep in El. injection El as El.
  apply app_inj_tail in El. destruct El as [<- El]. injection El as <- <-.
  exists (c0 ++ [(add fp dl, b)]). split; [apply load_new |].
  rewrite (Hsame (h ++ [c0 ++ [(add fp dl, b)]]) (length h) p
             (add fp dl) a).
  - rewrite (radau_jakobi_run ext _ p fp c0 a b rhs delta0 dl); auto.
    apply (load_alloc h _ _ p Ep).
  - apply load_new.
  - apply (load_alloc h _ _ p Ep).
Qed.
End RadauMore.

Lemma radau_jakobi_short_array_witness :
  GaussRadau.radau_jakobi extZ [[(0, 1)]%Z] 0 (-2)%Z = ([], inl IndexError).
Proof.
  destruct (@radau_jakobi_short_array Z NumZ extZ [[(0, 1)]%Z] 0 (-2)%Z)
    as [_ Hone].
  apply (Hone (0, 1)%Z). reflexivity.
Defined.

Lemma radau_jakobi_other_failure_witness :
  GaussRadau.radau_jakobi extZ [[(0, 1); (5, 4)]%Z] 0 (-3)%Z
  = ([CallSolveBanded], inl ValueError).
Proof.
  apply (@radau_jakobi_other_failure Z NumZ extZ [[(0, 1); (5, 4)]%Z] 0
           (-3)%Z [(0, 1); (5, 4)]%Z [4%Z] ValueError); reflexivity.
Defined.

Lemma radau_jakobi_idempotent_witness :
  GaussRadau.radau_jakobi extZ [[(0, 1); (5, 4)]%Z; [(0, 1); (0, 4)]%Z] 0
    (-2)%Z
  = GaussRadau.radau_jakobi extZ [[(0, 1); (5, 4)]%Z; [(0, 1); (0, 4)]%Z] 1
      (-2)%Z.
Proof.
  destruct (@radau_jakobi_idempotent Z NumZ extZ
              [[(0, 1); (5, 4)]%Z; [(0, 1); (0, 4)]%Z] 0 1 (-2)%Z
              [(0, 1)%Z] 5%Z 0%Z 4%Z eq_refl eq_refl) as [Hsame _].
  exact Hsame.
Defined.

(** ** The Gauss-Radau generator, continued *)

Section RadauGeneratorMore.
Context {F : Type} `{Num F}.
Variable ext : Externals F.

Lemma radau_all_heap (args : list (F * nat)) :
  forall (h h' : GaussRadau.Heap) (ps : list nat),
    result (GaussRadau.radau_all ext h args) = inr (ps, h') ->
    ps = seq (length h) (length args) /\
    trace (GaussRadau.radau_all ext h args)
    = repeat CallSolveBanded (length args) /\
    exists new, h' = h ++ new /\ length new = length args.
Proof.
  induction args as [| [fp p] args IH]; intros h h' ps E.
  - cbn in E. injection E as <- <-. split; [reflexivity |].
    split; [reflexivity |]. exists []. rewrite app_nil_r. split; reflexivity.
  - cbn [GaussRadau.radau_all] in *. rewrite result_bind in E.
    rewrite trace_bind.
    destruct (result (GaussRadau.radau_jakobi ext h p fp))
      as [e | [p1 h1]] eqn:Ej; [discriminate |].
    destruct (radau_jakobi_inv ext h h1 p p1 fp Ej)
      as (c0 & a & b & rhs & d0 & dl & _ & _ & _ & _ & Erun & -> & ->).
    rewrite result_bind in E. rewrite trace_bind.
    destruct (result (GaussRadau.radau_all ext
                        (h ++ [c0 ++ [(add fp dl, b)]]) args))
      as [e | [ps' h2]] eqn:Ea; [discriminate |].
    destruct (IH _ _ _ Ea) as (-> & Et & new & -> & Hnew).
    rewrite result_ret in E. injection E as <- <-.
    rewrite Erun, Et, trace_ret, app_nil_r.
    rewrite length_app. cbn [length trace fst]. rewrite Nat.add_1_r.
    split; [reflexivity |]. split; [reflexivity |].
    exists ((c0 ++ [(add fp dl, b)]) :: new).
    rewrite <- app_assoc. split; [reflexivity | simpl; lia].
Qed.

Lemma radau_jakobi_events (h : GaussRadau.Heap) (p : nat) (fp : F) :
  events_in radau_work (GaussRadau.radau_jakobi ext h p fp).
Proof.
  unfold GaussRadau.radau_jakobi.
  apply events_in_bind; [apply events_in_silent |]. intros c.
  apply events_in_bind; [apply events_in_silent |]. intros rhs.
  apply events_in_bind.
  - apply events_in_try; [apply events_in_call; exact I |].
    intros _. constructor.
  - intros delta. unfold GaussRadau.alloc.
    apply events_in_bind; [apply events_in_silent |]. intros dl.
    apply events_in_bind; [apply events_in_silent |]. intros c'.
    constructor.
Qed.

Lemma radau_all_events (args : list (F * nat)) :
  forall h, events_in radau_work (GaussRadau.radau_all ext h args).
Proof.
  induction args as [| [fp p] args IH]; intros h; [constructor |].
  cbn [GaussRadau.radau_all].
  apply events_in_bind; [apply radau_jakobi_events |]. intros [p1 h1].
  apply events_in_bind; [apply IH |]. intros [ps h2]. constructor.
Qed.

(** X14.  The modifications of [quad_gauss_radau] work on fresh arrays:
    every array returned is a new object, the arrays come in the order
    of the dimensions, and every array that was on the heap before, the
    coefficients of the recurrence provider among them, is left as it
    was. *)
Theorem radau_all_fresh :
  forall (args : list (F * nat)) (h h' : GaussRadau.Heap) (ps : list nat),
    result (GaussRadau.radau_all ext h args) = inr (ps, h') ->
    ps = seq (length h) (length args) /\
    length h' = length h + length args /\
    forall q a, GaussRadau.load h q = inr a -> GaussRadau.load h' q = inr a.
Proof.
  intros args h h' ps E.
  destruct (radau_all_heap args h h' ps E) as (Hps & _ & new & -> & Hnew).
  split; [exact Hps |]. split; [rewrite length_app, Hnew; reflexivity |].
  intros q a. unfold GaussRadau.load.
  destruct (nth_error h q) as [a' |] eqn:Eq; [| discriminate].
  intros E'. rewrite nth_error_app1, Eq by (apply nth_error_Some; congruence).
  exact E'.
Qed.

(** X15.  [quad_gauss_radau] calls none of the minimizer, the Stieltjes
    procedures, the inversion and the dependency check, whatever happens;
    and a call at an order other than 0 that returns a rule has made, in
    this order, one call of the recurrence provider, one banded solve for
    each dimension that has coefficients, and one call of the
    eigen-solver. *)
Theorem quad_gauss_radau_calls :
  forall (order : Z) (dist : Dist F) (fixed_point : option F)
         (rule : string) (accuracy : Z) (recurrence_algorithm : string),
    events_in radau_work
      (GaussRadau.quad_gauss_radau ext order dist fixed_point rule accuracy
         recurrence_algorithm) /\
    forall A w,
      order <> 0%Z ->
      result (GaussRadau.quad_gauss_radau ext order dist fixed_point rule
                accuracy recurrence_algorithm) = inr (A, w) ->
      exists coefficients,
        construct_recurrence_coefficients ext (2 * order - 1) dist rule
          accuracy recurrence_algorithm = inr coefficients /\
        trace (GaussRadau.quad_gauss_radau ext order dist fixed_point rule
                 accuracy recurrence_algorithm)
        = CallRecurrence
            :: repeat CallSolveBanded
                 (Nat.min (len dist) (length coefficients))
            ++ [CallCoefficientsToQuadrature].
Proof.
  intros order dist fixed_point rule accuracy algo. split.
  - unfold GaussRadau.quad_gauss_radau.
    destruct (order =? 0)%Z; [constructor |].
    apply events_in_bind; [apply events_in_call; exact I |].
    intros coefficients. rewrite alloc_all_spec.
    apply events_in_bind; [apply radau_all_events |]. intros [refs' h'].
    apply events_in_bind; [apply events_in_silent |]. intros cs.
    apply events_in_bind; [apply events_in_call; exact I |].
    intros [xs ws].
    apply events_in_bind; [apply events_in_silent |]. intros A0.
    constructor.
  - intros A w Horder E. unfold GaussRadau.quad_gauss_radau in *.
    apply Z.eqb_neq in Horder. rewrite Horder in *.
    rewrite result_bind in E. rewrite trace_bind.
    cbn [call result trace fst snd] in *.
    destruct (construct_recurrence_coefficients ext (2 * order - 1) dist
                rule accuracy algo) as [e | coefficients];
      [discriminate |].
    exists coefficients. split; [reflexivity |].
    rewrite alloc_all_spec in *. cbn [length app] in *.
    rewrite result_bind in E. rewrite trace_bind.
    destruct (result (GaussRadau.radau_all ext coefficients
                        (List.combine
                           (GaussRadau.resolve_fixed_point dist fixed_point)
                           (seq 0 (length coefficients)))))
      as [e | [refs' h']] eqn:Ea; [discriminate |].
    destruct (radau_all_heap _ _ _ _ Ea) as (_ & Et & _).
    rewrite Et, length_combine, length_seq.
    assert (Hfp : length (GaussRadau.resolve_fixed_point dist fixed_point)
                  = len dist).
    { unfold GaussRadau.resolve_fixed_point, len.
      destruct fixed_point; rewrite length_map;
        [apply repeat_length | reflexivity]. }
    rewrite Hfp.
    rewrite result_bind in E. rewrite trace_bind.
    cbn [lift result trace fst snd] in *.
    destruct (GaussRadau.load_all h' refs') as [e | cs]; [discriminate |].
    rewrite result_bind in E. rewrite trace_bind.
    cbn [call result trace fst snd] in *.
    destruct (coefficients_to_quadrature ext cs) as [e | [xs ws]];
      [discriminate |].
    rewrite result_bind in E. rewrite trace_bind.
    cbn [lift result trace fst snd] in *.
    destruct (GaussRadau.reshape (len dist)
                (tensor_abscissas (length xs) xs)) as [e | A0];
      [discriminate |].
    reflexivity.
Qed.
End RadauGeneratorMore.

Lemma radau_all_fresh_witness :
  exists h',
    result (GaussRadau.radau_all extZ
              [[(0, 1); (5, 4)]%Z; [(1, 1); (7, 9)]%Z]
              [((-2)%Z, 0); ((-2)%Z, 1)])
    = inr ([2; 3], h') /\
    GaussRadau.load h' 0 = inr [(0, 1); (5, 4)]%Z /\
    GaussRadau.load h' 1 = inr [(1, 1); (7, 9)]%Z.
Proof.
  eexists. split; [vm_compute; reflexivity |].
  destruct (@radau_all_fresh Z NumZ extZ
              [((-2)%Z, 0); ((-2)%Z, 1)]
              [[(0, 1); (5, 4)]%Z; [(1, 1); (7, 9)]%Z]
              [[(0, 1); (5, 4)]%Z; [(1, 1); (7, 9)]%Z;
               [(0, 1); (0, 4)]%Z; [(1, 1); (1, 9)]%Z]
              [2; 3] eq_refl) as (_ & _ & Hold).
  split; apply Hold; reflexivity.
Defined.

Lemma quad_gauss_radau_calls_witness :
  trace (GaussRadau.quad_gauss_radau extQ 1 (Joint Coin2 [Coin2]) None
           "F" 100 "")
  = [CallRecurrence; CallSolveBanded; CallSolveBanded;
     CallCoefficientsToQuadrature].
Proof.
  destruct (@quad_gauss_radau_calls Q NumQ extQ 1%Z (Joint Coin2 [Coin2])
              None "F"%string 100%Z ""%string) as [_ Hok].
  destruct (Hok [[(-2)%Q; (-2)%Q; 2%Q; 2%Q]; [(-2)%Q; 2%Q; (-2)%Q; 2%Q]]
              [(1 # 4)%Q; (1 # 4)%Q; (1 # 4)%Q; (1 # 4)%Q])
    as (cs & Ecs & Et).
  - discriminate.
  - reflexivity.
  - rewrite Et. vm_compute in Ecs. injection Ecs as <-. reflexivity.
Defined.

(** ** Sums of tensor-product weights *)

Section TensorSums.
Context {F : Type} `{Num F}.
Variable ext : Externals F.
Hypothesis Rth : ring_theory zero one add mul sub neg (@eq F).
Add Ring Fring_sums : Rth.

Lemma fold_left_add_acc (l : list F) :
  forall a, fold_left add l a = add a (vsum l).
Proof.
  unfold vsum. induction l as [| x l IH]; intros a; simpl; [ring |].
  rewrite (IH (add a x)), (IH (add zero x)). ring.
Qed.

Lemma fold_left_mul_acc (l : list F) :
  forall a, fold_left mul l a = mul a (prod l).
Proof.
  unfold prod. induction l as [| x l IH]; intros a; simpl; [ring |].
  rewrite (IH (mul a x)), (IH (mul one x)). ring.
Qed.

Lemma vsum_app (l1 l2 : list F) :
  vsum (l1 ++ l2) = add (vsum l1) (vsum l2).
Proof.
  unfold vsum at 1 2. rewrite fold_left_app. apply fold_left_add_acc.
Qed.

Lemma vsum_cons (x : F) (l : list F) : vsum (x :: l) = add x (vsum l).
Proof.
  unfold vsum at 1. simpl. rewrite fold_left_add_acc. ring.
Qed.

Lemma prod_cons (x : F) (l : list F) : prod (x :: l) = mul x (prod l).
Proof.
  unfold prod at 1. simpl. rewrite fold_left_mul_acc. ring.
Qed.

Lemma vsum_rows_cons (x : F) (rows : list (list F)) :
  vsum (map prod (map (cons x) rows)) = mul x (vsum (map prod rows)).
Proof.
  induction rows as [| r rows IH]; simpl.
  - unfold vsum. simpl. ring.
  - rewrite !vsum_cons, IH, prod_cons. ring.
Qed.

Lemma vsum_rows_flat (xs : list F) (rows : list (list F)) :
  vsum (map prod (flat_map (fun x => map (cons x) rows) xs))
  = mul (vsum xs) (vsum (map prod rows)).
Proof.
  induction xs as [| x xs IH]; simpl.
  - unfold vsum. simpl. ring.
  - rewrite map_app, vsum_app, vsum_rows_cons, IH, vsum_cons. ring.
Qed.

Lemma vsum_tensor_weights (ws : list (list F)) :
  vsum (tensor_weights ws) = prod (map vsum ws).
Proof.
  unfold tensor_weights. induction ws as [| w ws IH].
  - unfold vsum, prod. simpl. ring.
  - cbn [combine map]. rewrite vsum_rows_flat, IH, prod_cons. reflexivity.
Qed.

Lemma prod_ones (l : list F) : Forall (fun x => x = one) l -> prod l = one.
Proof.
  induction 1 as [| x l Hx _ IH]; [reflexivity |].
  rewrite prod_cons, Hx, IH. ring.
Qed.

(** X16.  In exact arithmetic the weights of a tensor-product rule sum to
    the product of the sums of the one-dimensional weights, hence to 1
    when every one-dimensional rule sums to 1; this holds of the weights
    [numpy.prod(combine(weights), -1)] both generators build, and so of
    every rule [quad_gauss_radau] returns at an order other than 0. *)
Theorem tensor_weights_total :
  (forall ws : list (list F),
     vsum (tensor_weights ws) = prod (map vsum ws) /\
     (Forall (fun w => vsum w = one) ws ->
      vsum (tensor_weights ws) = one)) /\
  (forall (order : Z) (dist : Dist F) (fixed_point : option F)
          (rule : string) (accuracy : Z) (recurrence_algorithm : string)
          (A : list (list F)) (w : list F),
     order <> 0%Z ->
     result (GaussRadau.quad_gauss_radau ext order dist fixed_point rule
               accuracy recurrence_algorithm) = inr (A, w) ->
     exists (cs : list (Coeffs F)) (xs ws : list (list F)),
       coefficients_to_quadrature ext cs = inr (xs, ws) /\
       vsum w = prod (map vsum ws)).
Proof.
  split.
  - intros ws. split; [apply vsum_tensor_weights |].
    intros Hone. rewrite vsum_tensor_weights. apply prod_ones.
    apply Forall_map. exact Hone.
  - intros order dist fixed_point rule accuracy algo A w Horder E.
    unfold GaussRadau.quad_gauss_radau in E.
    apply Z.eqb_neq in Horder. rewrite Horder in E.
    apply bind_inr_inv in E. destruct E as (coefficients & _ & E).
    rewrite alloc_all_spec in E.
    apply bind_inr_inv in E. destruct E as ([refs' h'] & _ & E).
    apply bind_inr_inv in E. destruct E as (cs & _ & E).
    apply bind_inr_inv in E. destruct E as ([xs ws] & Eq & E).
    apply bind_inr_inv in E. destruct E as (A0 & _ & E).
    rewrite result_ret in E. injection E as <- <-.
    exists cs, xs, ws. split; [exact Eq | apply vsum_tensor_weights].
Qed.
End TensorSums.

Lemma tensor_weights_total_witness :
  vsum (tensor_weights [[1; 2; 3]; [4; 5]]%Z) = 54%Z /\
  exists A w,
    result (GaussRadau.quad_gauss_radau extZ_radau 1 (Joint Count2 [Count2])
              None "F" 100 "") = inr (A, w) /\
    vsum w = 4%Z.
Proof.
  destruct (@tensor_weights_total Z NumZ extZ_radau Zth) as [Harr Hgen].
  split.
  - destruct (Harr [[1; 2; 3]; [4; 5]]%Z) as [E _]. rewrite E. reflexivity.
  - destruct (Hgen 1%Z (Joint Count2 [Count2]) None "F"%string 100%Z
               ""%string
               [[-2; -2; 2; 2]; [-2; 2; -2; 2]]%Z [1; 1; 1; 1]%Z)
      as (cs & xs & ws & _ & _).
    + discriminate.
    + reflexivity.
    + eexists. eexists. split; reflexivity.
Defined.

(** ** Gauss-Radau on one dimension *)




(** ** The fixed point in every dimension *)



Section RadauFixedPoint.
Context {F : Type} `{Num F}.
Variable ext : Externals F.
Hypothesis Rth : ring_theory zero one add mul sub neg (@eq F).
Add Ring Fring_fixed : Rth.

Hypothesis solve_banded_solves :
  forall ab rhs delta,
    solve_banded ext ab rhs = inr delta ->
    length delta = length rhs /\ GaussRadau.banded_mul ab delta = rhs.



End RadauFixedPoint.


